(** * LN point-neuron response model ([cshl_project/point_model.py])

    A shallow embedding of the subunit ([LGNnode]) and population ([V1node])
    models and of the [relu] nonlinearity ([cshl_project/nonlinearity.py]).

    Number model.  A finite Python [float] or NumPy [float64] is read as the
    real number it denotes: rounding and the sign of zero are left out, and
    so is the overflow of sums and products.  What is kept is the difference
    between the two arithmetics the program mixes:
    - Python scalars: [/] and [**] raise [ZeroDivisionError], [**] raises
      [OverflowError] when the power leaves the range of a float, rounds it
      to 0 when it underflows, and answers a negative base at a fractional
      exponent with a complex number;
    - NumPy scalars and arrays: [/] by zero, [sin] of an infinity and [**]
      out of range return [inf], [nan] or 0 and the computation goes on.
    Every zero is read as [+0.0]: where NumPy looks at the sign of a zero
    (the angle of the complex number 0), the theorems keep away from it. *)

From Stdlib Require Import Reals Lra Lia List ZArith Bool Permutation.
Import ListNotations.
Open Scope R_scope.

(** ** Python exceptions and results *)

Inductive exn : Type :=
| ZeroDivisionError
| ValueError
| OverflowError.

Inductive outcome (A : Type) : Type :=
| Ok (a : A)
| Raise (e : exn).

Arguments Ok {A} & a.
Arguments Raise {A} e.

Definition bind {A B : Type} (m : outcome A) (k : A -> outcome B) : outcome B :=
  match m with
  | Ok a => k a
  | Raise e => Raise e
  end.

Notation "x <- m ;; k" := (bind m (fun x => k))
  (at level 61, m at next level, right associativity).

(** Python true division of scalars. *)

Definition py_div (a b : R) : outcome R :=
  if Req_dec_T b 0 then Raise ZeroDivisionError else Ok (a / b).

(** *** The range of a float

    A binary64 result of magnitude [2^1024] or more overflows, and one of
    magnitude [2^-1075] or less is rounded to 0 (at the two boundaries
    themselves the rounding, as everywhere, is left out). *)

Definition overflow_threshold : R := 2 ^ 1024.
Definition underflow_threshold : R := / 2 ^ 1075.

(** A power that Python returns as it is: [OverflowError] on overflow, 0 on
    underflow. *)
Definition py_range (r : R) : outcome R :=
  if Rle_dec overflow_threshold (Rabs r) then Raise OverflowError
  else if Rle_dec (Rabs r) underflow_threshold then Ok 0
  else Ok r.

Definition is_integer (y : R) : bool :=
  if Req_dec_T (IZR (Int_part y)) y then true else false.

(** *** Python numbers: [float] and [complex] *)

Inductive pynum : Type :=
| PyR (r : R)
| PyC (re im : R).

Definition num_re (a : pynum) : R :=
  match a with
  | PyR r => r
  | PyC re _ => re
  end.

Definition num_im (a : pynum) : R :=
  match a with
  | PyR _ => 0
  | PyC _ im => im
  end.

Definition num_add (a b : pynum) : pynum :=
  match a, b with
  | PyR x, PyR y => PyR (x + y)
  | _, _ => PyC (num_re a + num_re b) (num_im a + num_im b)
  end.

Definition num_mul (a b : pynum) : pynum :=
  match a, b with
  | PyR x, PyR y => PyR (x * y)
  | _, _ => PyC (num_re a * num_re b - num_im a * num_im b)
                (num_re a * num_im b + num_im a * num_re b)
  end.

(** [a / b]: a zero divisor, real or complex, is a [ZeroDivisionError]. *)
Definition num_div (a b : pynum) : outcome pynum :=
  match a, b with
  | PyR x, PyR y => q <- py_div x y ;; Ok (PyR q)
  | _, _ =>
      let d := num_re b * num_re b + num_im b * num_im b in
      if Req_dec_T d 0 then Raise ZeroDivisionError
      else Ok (PyC ((num_re a * num_re b + num_im a * num_im b) / d)
                   ((num_im a * num_re b - num_re a * num_im b) / d))
  end.

(** [x ** y] for a float [x] and an exponent [y], [int] or [float] (only
    its value matters):
    - [x ** 0] is 1 and [x ** 1] is [x] itself;
    - [0 ** y] is 0 for [y > 0] and a [ZeroDivisionError] for [y < 0];
    - a positive base, or a negative base at an integer exponent, gives the
      real power, within the range of a float;
    - a negative base at a fractional exponent gives the complex number
      [|x|^y (cos (pi y) + i sin (pi y))]. *)
Definition py_pow (x y : R) : outcome pynum :=
  if Req_dec_T y 0 then Ok (PyR 1)
  else if Req_dec_T y 1 then Ok (PyR x)
  else if Req_dec_T x 0 then
         if Rlt_dec 0 y then Ok (PyR 0) else Raise ZeroDivisionError
  else if Rlt_dec 0 x then
         r <- py_range (Rpower x y) ;; Ok (PyR r)
  else if is_integer y then
         r <- py_range (powerRZ x (Int_part y)) ;; Ok (PyR r)
  else
    len <- py_range (Rpower (- x) y) ;;
    Ok (PyC (len * cos (PI * y)) (len * sin (PI * y))).

(** ** NumPy [float64] values *)

Inductive float64 : Type :=
| Fin (r : R)
| PInf
| NInf
| NaN.

Module Np.

Definition neg (x : float64) : float64 :=
  match x with
  | Fin r => Fin (- r)
  | PInf => NInf
  | NInf => PInf
  | NaN => NaN
  end.

(** [a * i] for a finite [a] and an infinity [i]. *)
Definition scale_inf (a : R) (i : float64) : float64 :=
  if Req_dec_T a 0 then NaN
  else if Rlt_dec 0 a then i else neg i.

Definition add (x y : float64) : float64 :=
  match x, y with
  | NaN, _ | _, NaN => NaN
  | Fin a, Fin b => Fin (a + b)
  | Fin _, i => i
  | i, Fin _ => i
  | PInf, PInf => PInf
  | NInf, NInf => NInf
  | PInf, NInf | NInf, PInf => NaN
  end.

Definition sub (x y : float64) : float64 := add x (neg y).

Definition mul (x y : float64) : float64 :=
  match x, y with
  | NaN, _ | _, NaN => NaN
  | Fin a, Fin b => Fin (a * b)
  | Fin a, i => scale_inf a i
  | i, Fin b => scale_inf b i
  | PInf, PInf | NInf, NInf => PInf
  | PInf, NInf | NInf, PInf => NInf
  end.

(** [np.true_divide]: a zero divisor gives [nan] for [0/0] and an infinity
    otherwise (the zero is read as [+0.0]). *)
Definition div (x y : float64) : float64 :=
  match x, y with
  | NaN, _ | _, NaN => NaN
  | Fin a, Fin b =>
      if Req_dec_T b 0 then scale_inf a PInf else Fin (a / b)
  | Fin _, _ => Fin 0
  | i, Fin b => if Rlt_dec b 0 then neg i else i
  | _, _ => NaN
  end.

(** A power that NumPy returns as it is: an infinity on overflow, 0 on
    underflow. *)
Definition np_range (r : R) : float64 :=
  if Rle_dec overflow_threshold (Rabs r)
  then if Rlt_dec r 0 then NInf else PInf
  else if Rle_dec (Rabs r) underflow_threshold then Fin 0
  else Fin r.

(** [float64 ** y] for an exponent [y], [int] or [float]: as Python's power,
    but nothing is raised ([0 ** y] is [inf] for [y < 0], a negative base
    at a fractional exponent gives [nan]). *)
Definition pow (x : float64) (y : R) : float64 :=
  if Req_dec_T y 0 then Fin 1
  else if Req_dec_T y 1 then x
  else match x with
       | NaN => NaN
       | Fin r =>
           if Req_dec_T r 0 then if Rlt_dec 0 y then Fin 0 else PInf
           else if Rlt_dec 0 r then np_range (Rpower r y)
           else if is_integer y then np_range (powerRZ r (Int_part y))
           else NaN
       | PInf => if Rlt_dec 0 y then PInf else Fin 0
       | NInf =>
           if Rlt_dec 0 y
           then if is_integer y && Z.odd (Int_part y) then NInf else PInf
           else Fin 0
       end.

Definition sin (x : float64) : float64 :=
  match x with
  | Fin r => Fin (Rtrigo_def.sin r)
  | _ => NaN
  end.

Definition cos (x : float64) : float64 :=
  match x with
  | Fin r => Fin (Rtrigo_def.cos r)
  | _ => NaN
  end.

Definition exp (x : float64) : float64 :=
  match x with
  | Fin r => Fin (Rtrigo_def.exp r)
  | PInf => PInf
  | NInf => Fin 0
  | NaN => NaN
  end.

(** [x < 0]; a comparison with [nan] is false. *)
Definition ltb0 (x : float64) : bool :=
  match x with
  | Fin r => if Rlt_dec r 0 then true else false
  | NInf => true
  | PInf | NaN => false
  end.

(** [x >= 0], as a proposition. *)
Definition ge0 (x : float64) : Prop :=
  match x with
  | Fin r => 0 <= r
  | PInf => True
  | NInf | NaN => False
  end.

(** [np.arctan2] on reals: the argument of [x + iy] in (-pi, pi].  At the
    origin NumPy answers 0, pi or -pi according to the signs of the two
    zeros; with every zero read as [+0.0] the value here is 0, and no
    theorem on the direction of the angle is stated at the origin. *)
Definition atan2R (y x : R) : R :=
  if Rlt_dec 0 x then atan (y / x)
  else if Rlt_dec x 0 then
         if Rle_dec 0 y then atan (y / x) + PI else atan (y / x) - PI
  else if Rlt_dec 0 y then PI / 2
  else if Rlt_dec y 0 then - (PI / 2)
  else 0.

Definition arctan2 (y x : float64) : float64 :=
  match y, x with
  | NaN, _ | _, NaN => NaN
  | Fin b, Fin a => Fin (atan2R b a)
  | Fin b, PInf => Fin 0
  | Fin b, NInf => if Rlt_dec b 0 then Fin (- PI) else Fin PI
  | PInf, Fin _ => Fin (PI / 2)
  | NInf, Fin _ => Fin (- (PI / 2))
  | PInf, PInf => Fin (PI / 4)
  | NInf, PInf => Fin (- (PI / 4))
  | PInf, NInf => Fin (3 * PI / 4)
  | NInf, NInf => Fin (- (3 * PI / 4))
  end.

Definition hypot (x y : float64) : float64 :=
  match x, y with
  | PInf, _ | NInf, _ | _, PInf | _, NInf => PInf
  | NaN, _ | _, NaN => NaN
  | Fin a, Fin b => Fin (sqrt (a * a + b * b))
  end.

(** *** [complex128] *)

Record complex128 : Type := Complex { re : float64; im : float64 }.

(** A real scalar promoted to [complex128]. *)
Definition of_real (x : float64) : complex128 := Complex x (Fin 0).

(** The literal [1j]. *)
Definition j : complex128 := Complex (Fin 0) (Fin 1).

Definition cadd (a b : complex128) : complex128 :=
  Complex (add (re a) (re b)) (add (im a) (im b)).

Definition cmul (a b : complex128) : complex128 :=
  Complex (sub (mul (re a) (re b)) (mul (im a) (im b)))
          (add (mul (re a) (im b)) (mul (im a) (re b))).

(** [|x|] and [x >= y] (false when either is [nan]). *)
Definition abs (x : float64) : float64 :=
  match x with
  | Fin r => Fin (Rabs r)
  | PInf | NInf => PInf
  | NaN => NaN
  end.

Definition geb (x y : float64) : bool :=
  match x, y with
  | NaN, _ | _, NaN => false
  | Fin a, Fin b => if Rle_dec b a then true else false
  | PInf, _ => true
  | _, NInf => true
  | _, _ => false
  end.

Definition is_zero (x : float64) : bool :=
  match x with
  | Fin r => if Req_dec_T r 0 then true else false
  | _ => false
  end.

(** Complex division, by the scaling NumPy uses. *)
Definition cdiv (a b : complex128) : complex128 :=
  let in2r_abs := abs (re b) in
  let in2i_abs := abs (im b) in
  if geb in2r_abs in2i_abs then
    if is_zero in2r_abs && is_zero in2i_abs
    then Complex (div (re a) in2r_abs) (div (im a) in2r_abs)
    else
      let rat := div (im b) (re b) in
      let scl := div (Fin 1) (add (re b) (mul (im b) rat)) in
      Complex (mul (add (re a) (mul (im a) rat)) scl)
              (mul (sub (im a) (mul (re a) rat)) scl)
  else
    let rat := div (re b) (im b) in
    let scl := div (Fin 1) (add (im b) (mul (re b) rat)) in
    Complex (mul (add (mul (re a) rat) (im a)) scl)
            (mul (sub (mul (im a) rat) (re a)) scl).

(** [np.exp] on a complex number. *)
Definition cexp (z : complex128) : complex128 :=
  Complex (mul (exp (re z)) (cos (im z))) (mul (exp (re z)) (sin (im z))).

(** [np.abs] and [np.angle] on a complex number. *)
Definition cabs (z : complex128) : float64 := hypot (re z) (im z).
Definition angle (z : complex128) : float64 := arctan2 (im z) (re z).

(** *** Scalars and arrays *)

(** What a stimulus phase or a response is: a scalar or a 1-d [ndarray]. *)
Inductive value : Type :=
| Scalar (x : float64)
| Array (xs : list float64).

Definition vmap (f : float64 -> float64) (v : value) : value :=
  match v with
  | Scalar x => Scalar (f x)
  | Array xs => Array (map f xs)
  end.

(** [np.zeros(length)]: a negative dimension is a [ValueError]. *)
Definition zeros (length : Z) : outcome (list float64) :=
  if (length <? 0)%Z then Raise ValueError
  else Ok (repeat (Fin 0) (Z.to_nat length)).

(** [np.linspace(start, stop, num)] with the end point included: [num]
    samples [start + i * step], [step = (stop - start) / (num - 1)], the last
    one overwritten with [stop]; a single sample is [start]. *)
Definition linspace (start stop : R) (num : nat) : list float64 :=
  match num with
  | O => []
  | S O => [Fin start]
  | S div =>
      let step := (stop - start) / INR div in
      map (fun i => Fin (INR i * step + start)) (seq 0 div) ++ [Fin stop]
  end.

(** [a += v] on a 1-d array [a]: [v] is broadcast when it is a scalar or
    has one element, added elementwise when the lengths agree, and refused
    with a [ValueError] otherwise. *)
Fixpoint add_arrays (a b : list float64) : list float64 :=
  match a, b with
  | x :: a', y :: b' => add x y :: add_arrays a' b'
  | _, _ => []
  end.

Definition iadd (a : list float64) (v : value) : outcome (list float64) :=
  match v with
  | Scalar y => Ok (map (fun x => add x y) a)
  | Array ys =>
      if Nat.eqb (length ys) (length a) then Ok (add_arrays a ys)
      else match ys with
           | [y] => Ok (map (fun x => add x y) a)
           | _ => Raise ValueError
           end
  end.

End Np.

Import Np.

(** ** [nonlinearity.py] *)

(** [relu]: an [ndarray] is copied and its negative entries set to 0; any
    other argument is compared with 0 as a number. *)
Definition relu (x : value) : value :=
  match x with
  | Array xs => Array (map (fun y => if ltb0 y then Fin 0 else y) xs)
  | Scalar y => Scalar (if ltb0 y then Fin 0 else y)
  end.

(** ** [LGNnode]: the subunit model *)

(** A contrast is a Python number in the grating path and the [float64]
    returned by [np.abs] in the plaid path. *)
Inductive scalar : Type :=
| PyFloat (r : R)
| NpFloat (x : float64).

Definition to_np (s : scalar) : float64 :=
  match s with
  | PyFloat r => Fin r
  | NpFloat x => x
  end.

(** What the contrast-response transform returns: a real number, hence a
    [scalar] (written without its constructor [Real]), or, when a power of
    a negative number at a fractional order is involved, a complex one. *)
Inductive number : Type :=
| Real (s : scalar)
| PyComplex (re im : R)
| NpComplex (z : complex128).

Coercion Real : scalar >-> number.

Definition of_pynum (a : pynum) : number :=
  match a with
  | PyR r => Real (PyFloat r)
  | PyC re im => PyComplex re im
  end.

Module LGNnode.

Record t : Type := Build {
  center : R * R;
  nonlinear : value -> value;
  Rmax : R;
  C50 : R;
  Rbase : R
}.

(** The constructor defaults. *)
Definition default_center : R * R := (0, 0).
Definition default_Rmax : R := 113 / 10.
Definition default_C50 : R := 1 / 2.
Definition default_Rbase : R := 0.

(** Defaults of the stimulus parameters. *)
Definition default_ori : R := 0.
Definition default_contrast : R := 48 / 100.
Definition default_phase : value := Scalar (Fin 0).
Definition default_sf : R := 50.
Definition default_Δphase : R := 0.
Definition default_order : R := 1.

(** [Rmax * contrast ** order / (contrast ** order + C50 ** order) + Rbase].
    With a Python contrast every operation is Python's; with a [float64]
    contrast only [C50 ** order] is, and a complex [C50 ** order] turns the
    rest into [complex128] arithmetic. *)
Definition _get_contrast_response (self : t) (contrast : scalar) (order : R)
  : outcome number :=
  match contrast with
  | PyFloat c =>
      p1 <- py_pow c order ;;
      p2 <- py_pow c order ;;
      p3 <- py_pow (C50 self) order ;;
      q <- num_div (num_mul (PyR (Rmax self)) p1) (num_add p2 p3) ;;
      Ok (of_pynum (num_add q (PyR (Rbase self))))
  | NpFloat c =>
      p3 <- py_pow (C50 self) order ;;
      match p3 with
      | PyR k =>
          Ok (Real (NpFloat (add (div (mul (Fin (Rmax self)) (pow c order))
                                      (add (pow c order) (Fin k)))
                                 (Fin (Rbase self)))))
      | PyC kr ki =>
          Ok (NpComplex
                (cadd (cdiv (of_real (mul (Fin (Rmax self)) (pow c order)))
                            (cadd (of_real (pow c order))
                                  (Complex (Fin kr) (Fin ki))))
                      (of_real (Fin (Rbase self)))))
      end
  end.

(** [np.array([[cos(ori), sin(ori)]]) @ self.center / sf * 2 * np.pi], the
    only entry of the 1x1 result. *)
Definition _dist_ϕ (self : t) (ori sf : R) : float64 :=
  mul (mul (div (Fin (Rtrigo_def.cos ori * fst (center self)
                      + Rtrigo_def.sin ori * snd (center self)))
                (Fin sf))
           (Fin 2))
      (Fin PI).

Definition _get_sinusoidal (self : t) (ori contrast : R) (phase : value)
  (sf : R) : value * scalar :=
  let _luminance := vmap (fun p => sin (add (_dist_ϕ self ori sf) p)) phase in
  (vmap (fun l => mul l (Fin 2)) _luminance, PyFloat contrast).

Definition _get_sinusoidal_plaid (self : t) (ori1 ori2 contrast1 contrast2 : R)
  (phase : value) (Δphase sf : R) : value * scalar :=
  let _dist_ϕ_1 := _dist_ϕ self ori1 sf in
  let _dist_ϕ_2 := add (_dist_ϕ self ori2 sf) (Fin Δphase) in
  let _vec :=
    cadd (cmul (of_real (Fin contrast1)) (cexp (cmul (of_real _dist_ϕ_1) j)))
         (cmul (of_real (Fin contrast2)) (cexp (cmul (of_real _dist_ϕ_2) j))) in
  let _luminance := vmap (fun p => sin (add (angle _vec) p)) phase in
  (vmap (fun l => mul l (Fin 2)) _luminance, NpFloat (cabs _vec)).

(** [r * value], in NumPy's arithmetic.  The two methods below call the
    transform at its default order 1, where it returns no complex number
    (lemma [default_order_real]); the second case only fills the type. *)
Definition times (r : number) (_l : value) : value :=
  match r with
  | Real s => vmap (fun l => mul (to_np s) l) _l
  | _ => vmap (fun _ => NaN) _l
  end.

Definition get_response_grating (self : t) (ori contrast : R) (phase : value)
  (sf : R) : outcome value :=
  let '(_l, _c) := _get_sinusoidal self ori contrast phase sf in
  r <- _get_contrast_response self _c default_order ;;
  Ok (nonlinear self (times r _l)).

Definition get_response_plaid (self : t) (ori1 ori2 contrast1 contrast2 : R)
  (phase : value) (Δphase sf : R) : outcome value :=
  let '(_l, _c) :=
    _get_sinusoidal_plaid self ori1 ori2 contrast1 contrast2 phase Δphase sf in
  r <- _get_contrast_response self _c default_order ;;
  Ok (nonlinear self (times r _l)).

End LGNnode.

(** ** [V1node]: the population model *)

Module V1node.

Record t : Type := Build {
  subunits : list LGNnode.t;
  nonlinear : value -> value
}.

(** The keyword arguments forwarded to the subunits; an absent one takes
    the subunit method's default. *)
Record grating_kwargs : Type := GratingKw {
  ori : option R;
  contrast : option R;
  sf : option R
}.

Record plaid_kwargs : Type := PlaidKw {
  ori1 : option R;
  ori2 : option R;
  contrast1 : option R;
  contrast2 : option R;
  Δphase : option R;
  plaid_sf : option R
}.

Definition or_default (d : R) (o : option R) : R :=
  match o with
  | Some x => x
  | None => d
  end.

(** [np.linspace(0, 2*np.pi*(1-1/length), length)]; [1/length] is a Python
    division. *)
Definition steps (length : Z) : outcome (list float64) :=
  q <- py_div 1 (IZR length) ;;
  Ok (linspace 0 (2 * PI * (1 - q)) (Z.to_nat length)).

(** The loop [for item in self.subunits: _resp += f(item)]. *)
Fixpoint accumulate (f : LGNnode.t -> outcome value) (items : list LGNnode.t)
  (_resp : list float64) : outcome (list float64) :=
  match items with
  | [] => Ok _resp
  | item :: rest =>
      r <- f item ;;
      _resp' <- iadd _resp r ;;
      accumulate f rest _resp'
  end.

(** [_resp / len(self.subunits)]. *)
Definition mean (_resp : list float64) (n : nat) : list float64 :=
  map (fun x => div x (Fin (INR n))) _resp.

Definition get_response_grating (self : t) (length : Z) (phase : R)
  (kw : grating_kwargs) : outcome (list float64) :=
  _resp <- zeros length ;;
  _step <- steps length ;;
  _resp <- accumulate
             (fun item =>
                LGNnode.get_response_grating item
                  (or_default LGNnode.default_ori (ori kw))
                  (or_default LGNnode.default_contrast (contrast kw))
                  (Array (map (fun s => add s (Fin phase)) _step))
                  (or_default LGNnode.default_sf (sf kw)))
             (subunits self) _resp ;;
  Ok (mean _resp (List.length (subunits self))).

Definition get_response_plaid (self : t) (length : Z) (phase : R)
  (kw : plaid_kwargs) : outcome (list float64) :=
  _resp <- zeros length ;;
  _step <- steps length ;;
  _resp <- accumulate
             (fun item =>
                LGNnode.get_response_plaid item
                  (or_default LGNnode.default_ori (ori1 kw))
                  (or_default LGNnode.default_ori (ori2 kw))
                  (or_default LGNnode.default_contrast (contrast1 kw))
                  (or_default LGNnode.default_contrast (contrast2 kw))
                  (Array (map (fun s => add s (Fin phase)) _step))
                  (or_default LGNnode.default_Δphase (Δphase kw))
                  (or_default LGNnode.default_sf (plaid_sf kw)))
             (subunits self) _resp ;;
  Ok (mean _resp (List.length (subunits self))).

End V1node.

(** ** The formulas of the specification *)

Section Formulas.

Variable self : LGNnode.t.

(** The contrast-response transform at order 1. *)
Definition CR (c : R) : R :=
  LGNnode.Rmax self * c / (c + LGNnode.C50 self) + LGNnode.Rbase self.

(** The spatial phase offset of a grating at the subunit centre. *)
Definition phase_offset (ori sf : R) : R :=
  (fst (LGNnode.center self) * Rtrigo_def.cos ori
   + snd (LGNnode.center self) * Rtrigo_def.sin ori) / sf * (2 * PI).

(** The sum of the two plaid components, as a point of the plane. *)
Definition plaid_vector (ori1 ori2 contrast1 contrast2 Δphase sf : R) : R * R :=
  let ϕ1 := phase_offset ori1 sf in
  let ϕ2 := phase_offset ori2 sf + Δphase in
  (contrast1 * Rtrigo_def.cos ϕ1 + contrast2 * Rtrigo_def.cos ϕ2,
   contrast1 * Rtrigo_def.sin ϕ1 + contrast2 * Rtrigo_def.sin ϕ2).

End Formulas.

Definition modulus (v : R * R) : R := sqrt (fst v * fst v + snd v * snd v).
Definition arg (v : R * R) : R := atan2R (snd v) (fst v).

(** [x >= 0] for every entry of a response. *)
Definition all_ge0 (v : value) : Prop :=
  match v with
  | Scalar x => ge0 x
  | Array xs => Forall ge0 xs
  end.

(** ** Auxiliary definitions *)

(** The common tail of the two subunit methods:
    [self.nonlinear(self._get_contrast_response(_c) * _l)]. *)
Definition respond (self : LGNnode.t) (lc : value * scalar) : outcome value :=
  r <- LGNnode._get_contrast_response self (snd lc) LGNnode.default_order ;;
  Ok (LGNnode.nonlinear self (LGNnode.times r (fst lc))).

(** [relu] on a real number. *)
Definition positive_part (r : R) : R := if Rlt_dec r 0 then 0 else r.

(** A curve of [n] finite entries, all [>= 0]. *)
Definition nonneg_curve (n : nat) (xs : list float64) : Prop :=
  exists rs : list R, xs = map Fin rs /\ length rs = n /\ Forall (Rle 0) rs.

(** The subunit of the constructor defaults, with a given nonlinearity. *)
Definition default_subunit (nl : value -> value) : LGNnode.t :=
  LGNnode.Build LGNnode.default_center nl LGNnode.default_Rmax
    LGNnode.default_C50 LGNnode.default_Rbase.

(** A power that comes out as it is: it neither overflows nor is rounded
    to 0. *)
Definition representable (r : R) : Prop :=
  underflow_threshold < Rabs r < overflow_threshold.

(** A [relu] subunit built with [C50 = 2]. *)
Definition wide_subunit : LGNnode.t :=
  LGNnode.Build LGNnode.default_center relu LGNnode.default_Rmax 2
    LGNnode.default_Rbase.


(** A [relu] subunit of baseline response 1. *)
Definition baseline_subunit : LGNnode.t :=
  LGNnode.Build LGNnode.default_center relu LGNnode.default_Rmax
    LGNnode.default_C50 1.

(** A [relu] subunit built with [C50 = 0]. *)
Definition degenerate_subunit : LGNnode.t :=
  LGNnode.Build LGNnode.default_center relu LGNnode.default_Rmax 0
    LGNnode.default_Rbase.

(** The stimulus defaults: no keyword argument given. *)
Definition no_grating_kwargs : V1node.grating_kwargs :=
  V1node.GratingKw None None None.
Definition no_plaid_kwargs : V1node.plaid_kwargs :=
  V1node.PlaidKw None None None None None None.

(** ** The other functions of [nonlinearity.py] *)

(** [rectification]: written like [relu], with one [return]. *)
Definition rectification (x : value) : value :=
  match x with
  | Array xs => Array (map (fun y => if ltb0 y then Fin 0 else y) xs)
  | Scalar y => Scalar (if ltb0 y then Fin 0 else y)
  end.

(** [contrast_response_hyperbolic(c, a, b, c50, alpha)]:
    [a * c ** alpha / (c ** alpha + c50 ** alpha) + b], in Python's
    arithmetic for a Python [c] and in NumPy's for a [float64] [c]. *)
Definition contrast_response_hyperbolic (c : scalar) (a b c50 alpha : R)
  : outcome number :=
  match c with
  | PyFloat x =>
      p1 <- py_pow x alpha ;;
      p2 <- py_pow x alpha ;;
      p3 <- py_pow c50 alpha ;;
      q <- num_div (num_mul (PyR a) p1) (num_add p2 p3) ;;
      Ok (of_pynum (num_add q (PyR b)))
  | NpFloat x =>
      p3 <- py_pow c50 alpha ;;
      match p3 with
      | PyR k =>
          Ok (Real (NpFloat (add (div (mul (Fin a) (pow x alpha))
                                      (add (pow x alpha) (Fin k)))
                                 (Fin b))))
      | PyC kr ki =>
          Ok (NpComplex
                (cadd (cdiv (of_real (mul (Fin a) (pow x alpha)))
                            (cadd (of_real (pow x alpha))
                                  (Complex (Fin kr) (Fin ki))))
                      (of_real (Fin b))))
      end
  end.

(** ** [metrics.py]: [IndexCalc] *)

(** The indices on NumPy scalars, such as the entries or the peak of a
    response curve; on arrays the same operations act entry by entry. *)
Module IndexCalc.

Definition masking_index (test mask plaid : float64) : float64 :=
  let _r := add test mask in
  div (sub plaid _r) (add plaid _r).

Definition selectivity_index (test mask : float64) : float64 :=
  div (sub test mask) (add test mask).

End IndexCalc.

(** A nonlinearity that answers an array with an array of the same
    length, as [relu] does. *)
Definition shape_preserving (nl : value -> value) : Prop :=
  forall xs : list float64,
    exists ys : list float64, nl (Array xs) = Array ys /\ length ys = length xs.

(** ** Arithmetic on finite values *)

Lemma div_fin (a b : R) : b <> 0 -> div (Fin a) (Fin b) = Fin (a / b).
Proof.
  intros Hb. unfold div. destruct (Req_dec_T b 0) as [E | _]; [contradiction | reflexivity].
Qed.

Lemma div_zero_zero : div (Fin 0) (Fin 0) = NaN.
Proof.
  unfold div, scale_inf.
  destruct (Req_dec_T 0 0) as [_ | N]; [reflexivity | contradiction N; reflexivity].
Qed.

Lemma py_div_ok (a b : R) : b <> 0 -> py_div a b = Ok (a / b).
Proof.
  intros Hb. unfold py_div. destruct (Req_dec_T b 0); [contradiction | reflexivity].
Qed.

Lemma py_div_zero (a : R) : py_div a 0 = Raise ZeroDivisionError.
Proof.
  unfold py_div. destruct (Req_dec_T 0 0) as [_ | N]; [reflexivity | contradiction N; reflexivity].
Qed.

Lemma py_pow_1 (x : R) : py_pow x 1 = Ok (PyR x).
Proof.
  unfold py_pow. destruct (Req_dec_T 1 0); [lra |].
  destruct (Req_dec_T 1 1); [reflexivity | lra].
Qed.

Lemma pow_1 (x : float64) : pow x 1 = x.
Proof.
  unfold pow. destruct (Req_dec_T 1 0); [lra |].
  destruct (Req_dec_T 1 1); [reflexivity | lra].
Qed.

Lemma pow_fin_1 (x : R) : pow (Fin x) 1 = Fin x.
Proof. apply pow_1. Qed.

Lemma py_pow_0 (x : R) : py_pow x 0 = Ok (PyR 1).
Proof.
  unfold py_pow. destruct (Req_dec_T 0 0) as [_ | N]; [reflexivity | lra].
Qed.

Lemma thresholds : 0 < underflow_threshold /\ underflow_threshold < / 4
                   /\ 1 < overflow_threshold.
Proof.
  unfold underflow_threshold, overflow_threshold.
  assert (H4 : 2 ^ 2 < 2 ^ 1075) by (apply Rlt_pow; [lra | lia]).
  assert (H1 : 1 < 2 ^ 1024) by (apply Rlt_pow_R1; [lra | lia]).
  replace (2 ^ 2) with 4 in H4 by (simpl; ring).
  split; [apply Rinv_0_lt_compat; lra |].
  split; [apply Rinv_lt_contravar; [nra | exact H4] | exact H1].
Qed.

Lemma py_range_ok (r : R) : representable r -> py_range r = Ok r.
Proof.
  intros [Hl Hu]. unfold py_range.
  destruct (Rle_dec overflow_threshold (Rabs r)); [lra |].
  destruct (Rle_dec (Rabs r) underflow_threshold); [lra | reflexivity].
Qed.

Lemma np_range_ok (r : R) : representable r -> np_range r = Fin r.
Proof.
  intros [Hl Hu]. unfold np_range.
  destruct (Rle_dec overflow_threshold (Rabs r)); [lra |].
  destruct (Rle_dec (Rabs r) underflow_threshold); [lra | reflexivity].
Qed.

Lemma Rpower_pos (x y : R) : 0 < Rpower x y.
Proof. unfold Rpower. apply exp_pos. Qed.

Lemma py_pow_zero_base (y : R) : 0 < y -> py_pow 0 y = Ok (PyR 0).
Proof.
  intros Hy. unfold py_pow.
  destruct (Req_dec_T y 0); [lra |].
  destruct (Req_dec_T y 1); [reflexivity |].
  destruct (Req_dec_T 0 0) as [_ | N]; [| lra].
  destruct (Rlt_dec 0 y); [reflexivity | lra].
Qed.

Lemma pow_zero_base (y : R) : 0 < y -> pow (Fin 0) y = Fin 0.
Proof.
  intros Hy. unfold pow.
  destruct (Req_dec_T y 0); [lra |].
  destruct (Req_dec_T y 1); [reflexivity |].
  destruct (Req_dec_T 0 0) as [_ | N]; [| lra].
  destruct (Rlt_dec 0 y); [reflexivity | lra].
Qed.

Lemma py_pow_pos_base (x y : R) :
  0 < x -> representable (Rpower x y) -> py_pow x y = Ok (PyR (Rpower x y)).
Proof.
  intros Hx Hr. unfold py_pow.
  destruct (Req_dec_T y 0) as [-> | _]; [rewrite Rpower_O by exact Hx; reflexivity |].
  destruct (Req_dec_T y 1) as [-> | _]; [rewrite Rpower_1 by exact Hx; reflexivity |].
  destruct (Req_dec_T x 0); [lra |].
  destruct (Rlt_dec 0 x); [| lra].
  rewrite py_range_ok by exact Hr. reflexivity.
Qed.

Lemma pow_pos_base (x y : R) :
  0 < x -> representable (Rpower x y) -> pow (Fin x) y = Fin (Rpower x y).
Proof.
  intros Hx Hr. unfold pow.
  destruct (Req_dec_T y 0) as [-> | _]; [rewrite Rpower_O by exact Hx; reflexivity |].
  destruct (Req_dec_T y 1) as [-> | _]; [rewrite Rpower_1 by exact Hx; reflexivity |].
  destruct (Req_dec_T x 0); [lra |].
  destruct (Rlt_dec 0 x); [| lra].
  apply np_range_ok. exact Hr.
Qed.

(** [0.5 ** 2000] underflows: Python returns 0. *)
Lemma half_power_underflows : py_pow (1 / 2) 2000 = Ok (PyR 0).
Proof.
  destruct thresholds as (Hu0 & _ & Ho).
  assert (E : Rpower (1 / 2) 2000 = / 2 ^ 2000).
  { replace 2000 with (INR 2000) by (rewrite INR_IZR_INZ; reflexivity).
    rewrite Rpower_pow by lra.
    replace (1 / 2) with (/ 2) by lra. apply pow_inv. }
  assert (P : 0 < 2 ^ 1075) by (apply pow_lt; lra).
  assert (L : 2 ^ 1075 <= 2 ^ 2000) by (apply Rle_pow; [lra | lia]).
  assert (U : Rpower (1 / 2) 2000 <= underflow_threshold).
  { rewrite E. unfold underflow_threshold.
    apply Rinv_le_contravar; assumption. }
  pose proof (Rpower_pos (1 / 2) 2000) as Hp.
  unfold py_pow.
  destruct (Req_dec_T 2000 0); [lra |].
  destruct (Req_dec_T 2000 1); [lra |].
  destruct (Req_dec_T (1 / 2) 0); [lra |].
  destruct (Rlt_dec 0 (1 / 2)); [| lra].
  unfold py_range. rewrite Rabs_pos_eq by lra.
  destruct (Rle_dec overflow_threshold (Rpower (1 / 2) 2000)); [lra |].
  destruct (Rle_dec (Rpower (1 / 2) 2000) underflow_threshold); [reflexivity | lra].
Qed.

(** [2.0 ** 2000] overflows: Python raises. *)
Lemma two_power_overflows : py_pow 2 2000 = Raise OverflowError.
Proof.
  assert (E : Rpower 2 2000 = 2 ^ 2000).
  { replace 2000 with (INR 2000) at 1 by (rewrite INR_IZR_INZ; reflexivity).
    apply Rpower_pow. lra. }
  assert (L : 2 ^ 1024 <= 2 ^ 2000) by (apply Rle_pow; [lra | lia]).
  pose proof (Rpower_pos 2 2000) as Hp.
  unfold py_pow.
  destruct (Req_dec_T 2000 0); [lra |].
  destruct (Req_dec_T 2000 1); [lra |].
  destruct (Req_dec_T 2 0); [lra |].
  destruct (Rlt_dec 0 2); [| lra].
  unfold py_range. rewrite Rabs_pos_eq by lra.
  destruct (Rle_dec overflow_threshold (Rpower 2 2000)) as [_ | N];
    [reflexivity |].
  exfalso. apply N. rewrite E. exact L.
Qed.

(** At its default order the transform returns a real number. *)
Lemma default_order_real (self : LGNnode.t) (c : scalar) (r : number) :
  LGNnode._get_contrast_response self c LGNnode.default_order = Ok r ->
  exists s : scalar, r = Real s.
Proof.
  unfold LGNnode._get_contrast_response, LGNnode.default_order.
  destruct c as [c | c]; rewrite !py_pow_1; cbn [bind num_mul num_add num_div].
  - unfold py_div. destruct (Req_dec_T (c + LGNnode.C50 self) 0); cbn [bind];
      [discriminate |].
    intros H. injection H as <-. eexists. reflexivity.
  - intros H. injection H as <-. eexists. reflexivity.
Qed.

(** ** The contrast-response transform on its domain *)

Lemma contrast_response_py (self : LGNnode.t) (c : R) :
  c + LGNnode.C50 self <> 0 ->
  LGNnode._get_contrast_response self (PyFloat c) 1 = Ok (PyFloat (CR self c)).
Proof.
  intros H. unfold LGNnode._get_contrast_response.
  rewrite !py_pow_1. cbn [bind num_mul num_add num_div].
  rewrite py_div_ok by exact H. reflexivity.
Qed.

Lemma contrast_response_py_raises (self : LGNnode.t) (c : R) :
  c + LGNnode.C50 self = 0 ->
  LGNnode._get_contrast_response self (PyFloat c) 1 = Raise ZeroDivisionError.
Proof.
  intros H. unfold LGNnode._get_contrast_response.
  rewrite !py_pow_1. cbn [bind num_mul num_add num_div].
  rewrite H. rewrite py_div_zero. reflexivity.
Qed.

Lemma contrast_response_np (self : LGNnode.t) (m : R) :
  m + LGNnode.C50 self <> 0 ->
  LGNnode._get_contrast_response self (NpFloat (Fin m)) 1
  = Ok (NpFloat (Fin (CR self m))).
Proof.
  intros H. unfold LGNnode._get_contrast_response.
  rewrite py_pow_1, !pow_fin_1. cbn [bind mul add].
  rewrite div_fin by exact H. reflexivity.
Qed.

(** ** The phase offset *)

Lemma dist_fin (self : LGNnode.t) (ori sf : R) :
  sf <> 0 -> LGNnode._dist_ϕ self ori sf = Fin (phase_offset self ori sf).
Proof.
  intros H. unfold LGNnode._dist_ϕ. rewrite div_fin by exact H. simpl.
  f_equal. unfold phase_offset. field. exact H.
Qed.

(** A spatial frequency 0: the phase offset is [inf] or [nan], and the
    luminance [nan], at every finite phase. *)
Lemma scale_inf_pos (a : R) (i : float64) : 0 < a -> scale_inf a i = i.
Proof.
  intros Ha. unfold scale_inf.
  destruct (Req_dec_T a 0); [lra |]. destruct (Rlt_dec 0 a); [reflexivity | lra].
Qed.

Lemma luminance_sf_zero (self : LGNnode.t) (ori p : R) :
  sin (add (LGNnode._dist_ϕ self ori 0) (Fin p)) = NaN.
Proof.
  pose proof PI_RGT_0 as HPI. unfold LGNnode._dist_ϕ.
  set (s := Rtrigo_def.cos ori * fst (LGNnode.center self)
            + Rtrigo_def.sin ori * snd (LGNnode.center self)).
  unfold div. destruct (Req_dec_T 0 0) as [_ | N]; [| contradiction N; reflexivity].
  unfold scale_inf at 1.
  destruct (Req_dec_T s 0); [reflexivity |].
  destruct (Rlt_dec 0 s); cbn [mul neg];
    rewrite scale_inf_pos by lra; cbn [mul];
    rewrite scale_inf_pos by lra; reflexivity.
Qed.

(** ** The argument of a point of the plane *)

Lemma sqrt_one_plus_tan2 (ϕ : R) :
  Rtrigo_def.cos ϕ <> 0 ->
  sqrt (1 + (Rtrigo_def.sin ϕ / Rtrigo_def.cos ϕ)²) = / Rabs (Rtrigo_def.cos ϕ).
Proof.
  intros Hc.
  assert (Ha : 0 < Rabs (Rtrigo_def.cos ϕ)) by (apply Rabs_pos_lt; exact Hc).
  apply sqrt_lem_1.
  - apply Rplus_le_le_0_compat; [lra | apply Rle_0_sqr].
  - left. apply Rinv_0_lt_compat. exact Ha.
  - pose proof (sin2_cos2 ϕ) as S. unfold Rsqr in *.
    rewrite <- Rinv_mult. rewrite <- Rabs_mult.
    rewrite (Rabs_pos_eq (Rtrigo_def.cos ϕ * Rtrigo_def.cos ϕ)) by nra.
    field_simplify; [| exact Hc | exact Hc].
    replace (Rtrigo_def.cos ϕ ^ 2 + Rtrigo_def.sin ϕ ^ 2) with 1 by (simpl; lra).
    field. exact Hc.
Qed.

Lemma atan_polar_cos (ϕ : R) :
  Rtrigo_def.cos ϕ <> 0 ->
  Rtrigo_def.cos (atan (Rtrigo_def.sin ϕ / Rtrigo_def.cos ϕ))
  = Rabs (Rtrigo_def.cos ϕ).
Proof.
  intros Hc. rewrite cos_atan, sqrt_one_plus_tan2 by exact Hc.
  field. apply Rabs_no_R0. exact Hc.
Qed.

Lemma atan_polar_sin (ϕ : R) :
  Rtrigo_def.cos ϕ <> 0 ->
  Rtrigo_def.sin (atan (Rtrigo_def.sin ϕ / Rtrigo_def.cos ϕ))
  = Rtrigo_def.sin ϕ / Rtrigo_def.cos ϕ * Rabs (Rtrigo_def.cos ϕ).
Proof.
  intros Hc. rewrite sin_atan, sqrt_one_plus_tan2 by exact Hc.
  field. split; [| apply Rabs_no_R0]; exact Hc.
Qed.

(** The argument of [r (cos ϕ + i sin ϕ)], [r > 0], has the cosine and the
    sine of [ϕ]: it is [ϕ] up to a multiple of 2 pi. *)
Lemma atan2R_polar (r ϕ : R) :
  0 < r ->
  Rtrigo_def.cos (atan2R (r * Rtrigo_def.sin ϕ) (r * Rtrigo_def.cos ϕ))
  = Rtrigo_def.cos ϕ
  /\ Rtrigo_def.sin (atan2R (r * Rtrigo_def.sin ϕ) (r * Rtrigo_def.cos ϕ))
     = Rtrigo_def.sin ϕ.
Proof.
  intros Hr. pose proof (sin2_cos2 ϕ) as S. unfold Rsqr in S.
  unfold atan2R.
  destruct (Rlt_dec 0 (r * Rtrigo_def.cos ϕ)) as [Hx | Hx].
  - assert (Hc : 0 < Rtrigo_def.cos ϕ) by nra.
    replace (r * Rtrigo_def.sin ϕ / (r * Rtrigo_def.cos ϕ))
      with (Rtrigo_def.sin ϕ / Rtrigo_def.cos ϕ) by (field; lra).
    rewrite atan_polar_cos, atan_polar_sin by lra.
    rewrite Rabs_pos_eq by lra. split; [reflexivity | field; lra].
  - destruct (Rlt_dec (r * Rtrigo_def.cos ϕ) 0) as [Hx' | Hx'].
    + assert (Hc : Rtrigo_def.cos ϕ < 0) by nra.
      replace (r * Rtrigo_def.sin ϕ / (r * Rtrigo_def.cos ϕ))
        with (Rtrigo_def.sin ϕ / Rtrigo_def.cos ϕ) by (field; lra).
      destruct (Rle_dec 0 (r * Rtrigo_def.sin ϕ)) as [Hy | Hy].
      * rewrite neg_cos, neg_sin, atan_polar_cos, atan_polar_sin by lra.
        rewrite Rabs_left by lra. split; [ring | field; lra].
      * unfold Rminus. rewrite cos_plus, sin_plus, cos_neg, sin_neg, cos_PI, sin_PI.
        rewrite atan_polar_cos, atan_polar_sin by lra.
        rewrite Rabs_left by lra. split; [ring | field; lra].
    + assert (Hc : Rtrigo_def.cos ϕ = 0) by nra.
      assert (Hs : Rtrigo_def.sin ϕ = 1 \/ Rtrigo_def.sin ϕ = -1).
      { rewrite Hc in S.
        assert (E : (Rtrigo_def.sin ϕ - 1) * (Rtrigo_def.sin ϕ + 1) = 0) by lra.
        apply Rmult_integral in E. destruct E; [left | right]; lra. }
      rewrite Hc.
      destruct (Rlt_dec 0 (r * Rtrigo_def.sin ϕ)) as [Hy | Hy].
      * rewrite cos_PI2, sin_PI2. destruct Hs as [-> | Hs]; [split; reflexivity | nra].
      * destruct (Rlt_dec (r * Rtrigo_def.sin ϕ) 0) as [Hy' | Hy'].
        -- rewrite cos_neg, sin_neg, cos_PI2, sin_PI2.
           destruct Hs as [Hs | ->]; [nra | split; reflexivity].
        -- destruct Hs as [Hs | Hs]; rewrite Hs in *; lra.
Qed.

(** [atan2R] is the principal argument: it lies in (-pi, pi]. *)
Lemma atan2R_range (y x : R) : - PI < atan2R y x <= PI.
Proof.
  pose proof PI_RGT_0 as HPI. pose proof (atan_bound (y / x)) as [Hl Hu].
  unfold atan2R.
  destruct (Rlt_dec 0 x) as [Hx | Hx]; [lra |].
  destruct (Rlt_dec x 0) as [Hx' | Hx'].
  - destruct (Rle_dec 0 y) as [Hy | Hy].
    + assert (Ht : y / x <= 0).
      { unfold Rdiv. assert (/ x < 0) by (apply Rinv_lt_0_compat; exact Hx'). nra. }
      assert (atan (y / x) <= 0).
      { destruct Ht as [Ht | Ht].
        - left. rewrite <- atan_0. apply atan_increasing. exact Ht.
        - rewrite Ht, atan_0. lra. }
      lra.
    + assert (Ht : 0 < y / x).
      { unfold Rdiv. assert (/ x < 0) by (apply Rinv_lt_0_compat; exact Hx'). nra. }
      assert (0 < atan (y / x)) by (rewrite <- atan_0; apply atan_increasing; exact Ht).
      lra.
  - destruct (Rlt_dec 0 y); [lra |]. destruct (Rlt_dec y 0); lra.
Qed.

Lemma sin_arg_polar (r ϕ p : R) :
  0 < r ->
  Rtrigo_def.sin (atan2R (r * Rtrigo_def.sin ϕ) (r * Rtrigo_def.cos ϕ) + p)
  = Rtrigo_def.sin (ϕ + p).
Proof.
  intros Hr. destruct (atan2R_polar r ϕ Hr) as [Hc Hs].
  rewrite !sin_plus, Hc, Hs. reflexivity.
Qed.

Lemma modulus_polar (r ϕ : R) :
  0 < r ->
  sqrt (r * Rtrigo_def.cos ϕ * (r * Rtrigo_def.cos ϕ)
        + r * Rtrigo_def.sin ϕ * (r * Rtrigo_def.sin ϕ)) = r.
Proof.
  intros Hr. pose proof (sin2_cos2 ϕ) as S. unfold Rsqr in S.
  apply sqrt_lem_1; [nra | lra | nra].
Qed.

(** ** The plaid vector *)

(** [contrast * np.exp(ϕ * 1j)] on finite values. *)
Lemma component_fin (c ϕ : R) :
  cmul (of_real (Fin c)) (cexp (cmul (of_real (Fin ϕ)) j))
  = Complex (Fin (c * Rtrigo_def.cos ϕ)) (Fin (c * Rtrigo_def.sin ϕ)).
Proof.
  unfold cmul, cexp, of_real, j, sub. cbn.
  replace (ϕ * 0 + - (0 * 1)) with 0 by ring.
  replace (ϕ * 1 + 0 * 0) with ϕ by ring.
  rewrite exp_0. f_equal; f_equal; ring.
Qed.

Lemma sinusoidal_plaid_fin (self : LGNnode.t)
  (ori1 ori2 contrast1 contrast2 Δphase sf : R) (phase : value) :
  sf <> 0 ->
  let v := plaid_vector self ori1 ori2 contrast1 contrast2 Δphase sf in
  LGNnode._get_sinusoidal_plaid self ori1 ori2 contrast1 contrast2 phase Δphase sf
  = (vmap (fun l => mul l (Fin 2))
          (vmap (fun p => sin (add (Fin (arg v)) p)) phase),
     NpFloat (Fin (modulus v))).
Proof.
  intros Hsf v. unfold LGNnode._get_sinusoidal_plaid.
  rewrite !dist_fin by exact Hsf. cbn [add]. rewrite !component_fin.
  reflexivity.
Qed.

Lemma modulus_nonneg (v : R * R) : 0 <= modulus v.
Proof. apply sqrt_pos. Qed.

Lemma grating_respond (self : LGNnode.t) (ori contrast sf : R) (phase : value) :
  LGNnode.get_response_grating self ori contrast phase sf
  = respond self (LGNnode._get_sinusoidal self ori contrast phase sf).
Proof. reflexivity. Qed.

Lemma plaid_respond (self : LGNnode.t)
  (ori1 ori2 contrast1 contrast2 Δphase sf : R) (phase : value) :
  LGNnode.get_response_plaid self ori1 ori2 contrast1 contrast2 phase Δphase sf
  = respond self
      (LGNnode._get_sinusoidal_plaid self ori1 ori2 contrast1 contrast2 phase
         Δphase sf).
Proof.
  unfold LGNnode.get_response_plaid, respond.
  destruct (LGNnode._get_sinusoidal_plaid self ori1 ori2 contrast1 contrast2
              phase Δphase sf); reflexivity.
Qed.

(** The response once the luminance and the contrast response are finite. *)
Lemma respond_fin (self : LGNnode.t) (l : value) (c : scalar) (r : R) :
  LGNnode._get_contrast_response self c 1 = Ok (PyFloat r)
  \/ LGNnode._get_contrast_response self c 1 = Ok (NpFloat (Fin r)) ->
  respond self (l, c)
  = Ok (LGNnode.nonlinear self (vmap (fun x => mul (Fin r) x) l)).
Proof.
  intros [H | H]; unfold respond, LGNnode.default_order; cbn [fst snd];
    rewrite H; reflexivity.
Qed.

(** ** Responses on finite values *)

Lemma grating_scalar (self : LGNnode.t) (ori c sf p : R) :
  sf <> 0 ->
  c + LGNnode.C50 self <> 0 ->
  LGNnode.get_response_grating self ori c (Scalar (Fin p)) sf
  = Ok (LGNnode.nonlinear self
          (Scalar (Fin (CR self c * 2
                        * Rtrigo_def.sin (phase_offset self ori sf + p))))).
Proof.
  intros Hsf Hc. rewrite grating_respond. unfold LGNnode._get_sinusoidal.
  rewrite dist_fin by exact Hsf.
  rewrite (respond_fin self _ _ (CR self c))
    by (left; apply contrast_response_py; exact Hc).
  cbn. do 4 f_equal. ring.
Qed.

Lemma grating_array (self : LGNnode.t) (ori c sf : R) (ps : list R) :
  sf <> 0 ->
  c + LGNnode.C50 self <> 0 ->
  LGNnode.get_response_grating self ori c (Array (map Fin ps)) sf
  = Ok (LGNnode.nonlinear self
          (Array (map (fun p => Fin (CR self c * 2
                                     * Rtrigo_def.sin (phase_offset self ori sf + p)))
                      ps))).
Proof.
  intros Hsf Hc. rewrite grating_respond. unfold LGNnode._get_sinusoidal.
  rewrite dist_fin by exact Hsf.
  rewrite (respond_fin self _ _ (CR self c))
    by (left; apply contrast_response_py; exact Hc).
  cbn. do 3 f_equal. rewrite !map_map. apply map_ext.
  intros p. cbn. f_equal. ring.
Qed.

Lemma grating_sf_zero_nan (self : LGNnode.t) (ori c p : R) :
  c + LGNnode.C50 self <> 0 ->
  LGNnode.get_response_grating self ori c (Scalar (Fin p)) 0
  = Ok (LGNnode.nonlinear self (Scalar NaN)).
Proof.
  intros Hc. rewrite grating_respond. unfold LGNnode._get_sinusoidal.
  cbn [vmap]. rewrite luminance_sf_zero.
  rewrite (respond_fin self _ _ (CR self c))
    by (left; apply contrast_response_py; exact Hc).
  reflexivity.
Qed.

Lemma plaid_scalar (self : LGNnode.t)
  (ori1 ori2 contrast1 contrast2 Δphase sf p : R) :
  0 < LGNnode.C50 self ->
  sf <> 0 ->
  let v := plaid_vector self ori1 ori2 contrast1 contrast2 Δphase sf in
  LGNnode.get_response_plaid self ori1 ori2 contrast1 contrast2
    (Scalar (Fin p)) Δphase sf
  = Ok (LGNnode.nonlinear self
          (Scalar (Fin (CR self (modulus v) * 2 * Rtrigo_def.sin (arg v + p))))).
Proof.
  intros HC50 Hsf v.
  assert (Hm : modulus v + LGNnode.C50 self <> 0)
    by (pose proof (modulus_nonneg v); lra).
  rewrite plaid_respond.
  rewrite sinusoidal_plaid_fin by exact Hsf.
  rewrite (respond_fin self _ _ (CR self (modulus v)))
    by (right; apply contrast_response_np; exact Hm).
  subst v. cbn [vmap map mul add sin]. do 4 f_equal. ring.
Qed.

Lemma plaid_array (self : LGNnode.t)
  (ori1 ori2 contrast1 contrast2 Δphase sf : R) (ps : list R) :
  0 < LGNnode.C50 self ->
  sf <> 0 ->
  let v := plaid_vector self ori1 ori2 contrast1 contrast2 Δphase sf in
  LGNnode.get_response_plaid self ori1 ori2 contrast1 contrast2
    (Array (map Fin ps)) Δphase sf
  = Ok (LGNnode.nonlinear self
          (Array (map (fun p => Fin (CR self (modulus v) * 2
                                     * Rtrigo_def.sin (arg v + p)))
                      ps))).
Proof.
  intros HC50 Hsf v.
  assert (Hm : modulus v + LGNnode.C50 self <> 0)
    by (pose proof (modulus_nonneg v); lra).
  rewrite plaid_respond.
  rewrite sinusoidal_plaid_fin by exact Hsf.
  rewrite (respond_fin self _ _ (CR self (modulus v)))
    by (right; apply contrast_response_np; exact Hm).
  subst v. cbn [vmap]. do 3 f_equal. rewrite !map_map. apply map_ext.
  intros p. cbn [mul add sin]. f_equal. ring.
Qed.

(** ** Claims on the subunit model *)

(** C3.  Grating response of a subunit.  For a spatial frequency [sf <> 0]
    and a contrast [c] at which the contrast-response transform is defined
    ([c + C50 <> 0], in particular [C50 > 0] and [c >= 0]) the response is
    [f (CR c * 2 * sin (ϕ + p))], with [ϕ] the phase offset
    [(x cos ori + y sin ori) / sf * 2 pi]; for an array of phases it is [f]
    of the array of these values.  At [c + C50 = 0], where the transform
    divides by zero, the call raises [ZeroDivisionError]. *)
Theorem grating_response_formula (self : LGNnode.t) (ori c sf : R) :
  sf <> 0 ->
  let response p :=
    Fin (CR self c * 2 * Rtrigo_def.sin (phase_offset self ori sf + p)) in
  (c + LGNnode.C50 self <> 0 ->
   (forall p : R,
      LGNnode.get_response_grating self ori c (Scalar (Fin p)) sf
      = Ok (LGNnode.nonlinear self (Scalar (response p))))
   /\ (forall ps : list R,
         LGNnode.get_response_grating self ori c (Array (map Fin ps)) sf
         = Ok (LGNnode.nonlinear self (Array (map response ps)))))
  /\ (c + LGNnode.C50 self = 0 ->
      forall phase : value,
        LGNnode.get_response_grating self ori c phase sf
        = Raise ZeroDivisionError).
Proof.
  intros Hsf response. split.
  - intros Hc. split.
    + intros p. apply grating_scalar; assumption.
    + intros ps. apply grating_array; assumption.
  - intros Hc phase.
    rewrite grating_respond.
    unfold respond, LGNnode._get_sinusoidal, LGNnode.default_order.
    cbn [snd]. rewrite contrast_response_py_raises by exact Hc. reflexivity.
Qed.


(** The luminance of a plaid whose vector is [r (cos ϕ + i sin ϕ)],
    [r > 0], is the luminance of a grating of phase offset [ϕ]. *)
Lemma luminance_polar (r ϕ : R) (p : float64) :
  0 < r ->
  sin (add (Fin (atan2R (r * Rtrigo_def.sin ϕ) (r * Rtrigo_def.cos ϕ))) p)
  = sin (add (Fin ϕ) p).
Proof.
  intros Hr. destruct p as [p | | |]; cbn; try reflexivity.
  f_equal. apply sin_arg_polar. exact Hr.
Qed.

Lemma vmap_ext (f g : float64 -> float64) (v : value) :
  (forall x, f x = g x) -> vmap f v = vmap g v.
Proof.
  intros H. destruct v as [x | xs]; cbn; [rewrite H; reflexivity |].
  f_equal. apply map_ext. exact H.
Qed.

(** A plaid whose vector is [r (cos ϕ + i sin ϕ)], [r > 0], is answered as
    the grating of contrast [r] and phase offset [ϕ]. *)
Lemma plaid_as_grating (self : LGNnode.t)
  (ori1 ori2 contrast1 contrast2 Δphase sf ori r : R) (phase : value) :
  0 < LGNnode.C50 self ->
  sf <> 0 ->
  0 < r ->
  plaid_vector self ori1 ori2 contrast1 contrast2 Δphase sf
  = (r * Rtrigo_def.cos (phase_offset self ori sf),
     r * Rtrigo_def.sin (phase_offset self ori sf)) ->
  LGNnode.get_response_plaid self ori1 ori2 contrast1 contrast2 phase Δphase sf
  = LGNnode.get_response_grating self ori r phase sf.
Proof.
  intros HC50 Hsf Hr Hv.
  rewrite plaid_respond, grating_respond. unfold LGNnode._get_sinusoidal.
  rewrite sinusoidal_plaid_fin by exact Hsf. rewrite Hv.
  unfold arg, modulus. cbn [fst snd]. rewrite modulus_polar by exact Hr.
  rewrite dist_fin by exact Hsf.
  rewrite (respond_fin self _ (NpFloat (Fin r)) (CR self r))
    by (right; apply contrast_response_np; lra).
  rewrite (respond_fin self _ (PyFloat r) (CR self r))
    by (left; apply contrast_response_py; lra).
  do 4 f_equal. apply vmap_ext. intros p. apply luminance_polar. exact Hr.
Qed.

(** C7.  A plaid whose second component has contrast 0 is answered as the
    grating of its first component: for [C50 > 0], [sf <> 0], [c > 0] and
    every phase (scalar or array), second orientation and [Δphase], the plaid
    response at [(θ, c)] and contrast2 = 0 is the grating response at
    [(θ, c)]. *)
Theorem plaid_contrast2_zero (self : LGNnode.t) (θ ori2 c Δphase sf : R)
  (phase : value) :
  0 < LGNnode.C50 self ->
  sf <> 0 ->
  0 < c ->
  LGNnode.get_response_plaid self θ ori2 c 0 phase Δphase sf
  = LGNnode.get_response_grating self θ c phase sf.
Proof.
  intros HC50 Hsf Hc. apply plaid_as_grating; try assumption.
  unfold plaid_vector. f_equal; ring.
Qed.

(** C8.  Constructive interference: for [C50 > 0], [sf <> 0] and [c > 0] the
    plaid response at [ori1 = ori2 = θ], [contrast1 = contrast2 = c] and
    [Δphase = 0] is the grating response at orientation [θ] and contrast
    [2 c]. *)
Theorem plaid_constructive_interference (self : LGNnode.t) (θ c sf : R)
  (phase : value) :
  0 < LGNnode.C50 self ->
  sf <> 0 ->
  0 < c ->
  LGNnode.get_response_plaid self θ θ c c phase 0 sf
  = LGNnode.get_response_grating self θ (2 * c) phase sf.
Proof.
  intros HC50 Hsf Hc. apply plaid_as_grating; try assumption; [lra |].
  unfold plaid_vector. rewrite Rplus_0_r. f_equal; ring.
Qed.

(** ** Claims on the contrast-response transform *)

(** C6, as stated, fails at [order = 0] and where [C50 ** order] leaves
    the range of a float.  Python defines [0 ** 0 = 1], so the default
    subunit ([Rmax = 11.3], [C50 = 0.5], [Rbase = 0]) answers
    [Rmax / 2 + Rbase = 5.65] at contrast 0, not [Rbase]; at order 2000,
    where [0 ** 2000 = 0] is defined, [0.5 ** 2000] is rounded to 0 and the
    division [0 / (0 + 0)] raises [ZeroDivisionError]; and with [C50 = 2]
    the power [2.0 ** 2000] raises [OverflowError]. *)
Lemma contrast_response_zero_order_zero :
  let self := default_subunit relu in
  0 <= LGNnode.Rmax self
  /\ 0 < LGNnode.C50 self
  /\ (py_pow 0 0 = Ok (PyR 1)
      /\ LGNnode._get_contrast_response self (PyFloat 0) 0
         = Ok (PyFloat (113 / 20))
      /\ LGNnode._get_contrast_response self (PyFloat 0) 0
         <> Ok (PyFloat (LGNnode.Rbase self)))
  /\ (py_pow 0 2000 = Ok (PyR 0)
      /\ LGNnode._get_contrast_response self (PyFloat 0) 2000
         = Raise ZeroDivisionError)
  /\ (0 < LGNnode.C50 wide_subunit
      /\ LGNnode._get_contrast_response wide_subunit (PyFloat 0) 2000
         = Raise OverflowError).
Proof.
  assert (E : LGNnode._get_contrast_response (default_subunit relu) (PyFloat 0) 0
              = Ok (Real (PyFloat (113 / 20)))).
  { unfold LGNnode._get_contrast_response. rewrite !py_pow_0.
    cbn [bind num_mul num_add num_div].
    rewrite py_div_ok by lra. cbn [bind num_add of_pynum]. do 3 f_equal.
    cbn. unfold LGNnode.default_Rmax, LGNnode.default_Rbase. field. }
  cbn zeta. split; [cbn; unfold LGNnode.default_Rmax; lra |].
  split; [cbn; unfold LGNnode.default_C50; lra |]. split.
  - split; [apply py_pow_0 |]. split; [exact E |].
    rewrite E. cbn. unfold LGNnode.default_Rbase. intros H.
    injection H as H. lra.
  - split.
    + split; [apply py_pow_zero_base; lra |].
      unfold LGNnode._get_contrast_response.
      change (LGNnode.C50 (default_subunit relu)) with LGNnode.default_C50.
      unfold LGNnode.default_C50.
      rewrite half_power_underflows, py_pow_zero_base by lra.
      cbn [bind num_mul num_add num_div].
      replace (0 + 0) with 0 by ring. rewrite py_div_zero. reflexivity.
    + split; [cbn; lra |].
      unfold LGNnode._get_contrast_response.
      change (LGNnode.C50 wide_subunit) with 2.
      rewrite two_power_overflows, py_pow_zero_base by lra. reflexivity.
Qed.

(** C6, amended.  For [C50 > 0] and every order [> 0], integer or not, at
    which [C50 ** order] neither overflows nor is rounded to 0, the
    contrast-response transform at contrast 0 is [Rbase], for a Python
    contrast and for a [float64] contrast alike. *)
Theorem contrast_response_at_zero (self : LGNnode.t) (order : R) :
  0 < LGNnode.C50 self ->
  0 < order ->
  representable (Rpower (LGNnode.C50 self) order) ->
  LGNnode._get_contrast_response self (PyFloat 0) order
  = Ok (PyFloat (LGNnode.Rbase self))
  /\ LGNnode._get_contrast_response self (NpFloat (Fin 0)) order
     = Ok (NpFloat (Fin (LGNnode.Rbase self))).
Proof.
  intros HC50 Ho Hr.
  pose proof (Rpower_pos (LGNnode.C50 self) order) as Hp.
  unfold LGNnode._get_contrast_response.
  rewrite !py_pow_zero_base, !pow_zero_base by exact Ho.
  rewrite py_pow_pos_base by assumption.
  cbn [bind num_mul num_add num_div mul add]. split.
  - rewrite py_div_ok by lra. cbn [bind num_add of_pynum]. do 3 f_equal.
    field. lra.
  - rewrite div_fin by lra. cbn [add]. do 4 f_equal. field. lra.
Qed.

(** C9.  For [Rmax >= 0], [C50 > 0] and order 1 the contrast-response
    transform is defined and non-decreasing on [0, 1], for Python contrasts
    and for [float64] contrasts alike. *)
Theorem contrast_response_monotone (self : LGNnode.t) (c1 c2 : R) :
  0 <= LGNnode.Rmax self ->
  0 < LGNnode.C50 self ->
  0 <= c1 -> c1 <= c2 -> c2 <= 1 ->
  exists r1 r2 : R,
    LGNnode._get_contrast_response self (PyFloat c1) 1 = Ok (PyFloat r1)
    /\ LGNnode._get_contrast_response self (PyFloat c2) 1 = Ok (PyFloat r2)
    /\ LGNnode._get_contrast_response self (NpFloat (Fin c1)) 1
       = Ok (NpFloat (Fin r1))
    /\ LGNnode._get_contrast_response self (NpFloat (Fin c2)) 1
       = Ok (NpFloat (Fin r2))
    /\ r1 <= r2.
Proof.
  intros HR HC50 H1 H12 H2.
  exists (CR self c1), (CR self c2).
  split; [apply contrast_response_py; lra |].
  split; [apply contrast_response_py; lra |].
  split; [apply contrast_response_np; lra |].
  split; [apply contrast_response_np; lra |].
  unfold CR. apply Rplus_le_compat_r.
  set (k := LGNnode.C50 self) in *. set (m := LGNnode.Rmax self) in *.
  assert (E : m * c2 / (c2 + k) - m * c1 / (c1 + k)
              = m * k * (c2 - c1) / ((c2 + k) * (c1 + k))) by (field; lra).
  assert (P : 0 <= m * k * (c2 - c1) / ((c2 + k) * (c1 + k))).
  { apply Rmult_le_pos; [| left; apply Rinv_0_lt_compat; nra].
    apply Rmult_le_pos; [nra | lra]. }
  lra.
Qed.

(** ** The [relu] nonlinearity on finite values *)

Lemma positive_part_nonneg (r : R) : 0 <= positive_part r.
Proof. unfold positive_part. destruct (Rlt_dec r 0); lra. Qed.

Lemma positive_part_zero (r : R) : r <= 0 -> positive_part r = 0.
Proof. unfold positive_part. destruct (Rlt_dec r 0); lra. Qed.

Lemma positive_part_id (r : R) : 0 <= r -> positive_part r = r.
Proof. unfold positive_part. destruct (Rlt_dec r 0); lra. Qed.

Lemma relu_scalar_fin (r : R) :
  relu (Scalar (Fin r)) = Scalar (Fin (positive_part r)).
Proof.
  unfold relu, ltb0, positive_part. destruct (Rlt_dec r 0); reflexivity.
Qed.

Lemma relu_array_fin {A : Type} (g : A -> R) (ps : list A) :
  relu (Array (map (fun p => Fin (g p)) ps))
  = Array (map (fun p => Fin (positive_part (g p))) ps).
Proof.
  unfold relu. f_equal. rewrite map_map. apply map_ext. intros p.
  unfold ltb0, positive_part. destruct (Rlt_dec (g p) 0); reflexivity.
Qed.

(** ** Grating response at contrast 0 *)

(** C5, as stated, fails for a baseline response [Rbase <> 0]: the
    contrast-response transform at contrast 0 is [Rbase], not 0, and it
    multiplies the luminance.  The [relu] subunit with [Rbase = 1] (centre
    (0, 0), [Rmax = 11.3], [C50 = 0.5]) answers 2 to the grating of contrast
    0 at phase pi/2, while [relu 0 = 0]. *)
Lemma grating_zero_contrast_baseline :
  0 <= LGNnode.Rmax baseline_subunit
  /\ 0 < LGNnode.C50 baseline_subunit
  /\ LGNnode.get_response_grating baseline_subunit 0 0 (Scalar (Fin (PI / 2))) 50
     = Ok (Scalar (Fin 2))
  /\ relu (Scalar (Fin 0)) = Scalar (Fin 0)
  /\ LGNnode.get_response_grating baseline_subunit 0 0 (Scalar (Fin (PI / 2))) 50
     <> Ok (relu (Scalar (Fin 0))).
Proof.
  assert (E : LGNnode.get_response_grating baseline_subunit 0 0
                (Scalar (Fin (PI / 2))) 50 = Ok (Scalar (Fin 2))).
  { rewrite grating_scalar
      by (cbn; unfold LGNnode.default_C50; lra).
    change (LGNnode.nonlinear baseline_subunit) with relu.
    rewrite relu_scalar_fin. do 3 f_equal.
    rewrite positive_part_id.
    - unfold CR, phase_offset. cbn. unfold LGNnode.default_Rmax, LGNnode.default_C50.
      replace ((0 * Rtrigo_def.cos 0 + 0 * Rtrigo_def.sin 0) / 50 * (2 * PI) + PI / 2)
        with (PI / 2) by field.
      rewrite sin_PI2. field.
    - unfold CR, phase_offset. cbn. unfold LGNnode.default_Rmax, LGNnode.default_C50.
      replace ((0 * Rtrigo_def.cos 0 + 0 * Rtrigo_def.sin 0) / 50 * (2 * PI) + PI / 2)
        with (PI / 2) by field.
      rewrite sin_PI2. lra. }
  assert (Z0 : relu (Scalar (Fin 0)) = Scalar (Fin 0)).
  { rewrite relu_scalar_fin, positive_part_id by lra. reflexivity. }
  repeat split.
  - cbn. unfold LGNnode.default_Rmax. lra.
  - cbn. unfold LGNnode.default_C50. lra.
  - exact E.
  - exact Z0.
  - rewrite E, Z0. intros H. injection H as H. lra.
Qed.

(** C5, amended.  For a [relu] subunit with [C50 > 0] and every phase,
    orientation and spatial frequency [sf <> 0], the grating response at
    contrast 0 is [relu (Rbase * 2 * sin (ϕ + p))]; with [Rbase = 0] it is
    [relu 0 = 0], in every entry for an array of phases. *)
Theorem grating_zero_contrast (self : LGNnode.t) (ori sf : R) :
  LGNnode.nonlinear self = relu ->
  0 < LGNnode.C50 self ->
  sf <> 0 ->
  let luminance p := 2 * Rtrigo_def.sin (phase_offset self ori sf + p) in
  ((forall p : R,
      LGNnode.get_response_grating self ori 0 (Scalar (Fin p)) sf
      = Ok (relu (Scalar (Fin (LGNnode.Rbase self * luminance p)))))
   /\ (forall ps : list R,
         LGNnode.get_response_grating self ori 0 (Array (map Fin ps)) sf
         = Ok (relu (Array (map (fun p => Fin (LGNnode.Rbase self * luminance p))
                                ps)))))
  /\ (LGNnode.Rbase self = 0 ->
      (forall p : R,
         LGNnode.get_response_grating self ori 0 (Scalar (Fin p)) sf
         = Ok (relu (Scalar (Fin 0)))
         /\ relu (Scalar (Fin 0)) = Scalar (Fin 0))
      /\ (forall ps : list R,
            LGNnode.get_response_grating self ori 0 (Array (map Fin ps)) sf
            = Ok (Array (map (fun _ => Fin 0) ps)))).
Proof.
  intros Hnl HC50 Hsf luminance.
  assert (Hd : 0 + LGNnode.C50 self <> 0) by lra.
  assert (HCR : CR self 0 = LGNnode.Rbase self) by (unfold CR; field; lra).
  assert (Hs : forall p : R,
             LGNnode.get_response_grating self ori 0 (Scalar (Fin p)) sf
             = Ok (relu (Scalar (Fin (LGNnode.Rbase self * luminance p))))).
  { intros p. rewrite grating_scalar by assumption. rewrite Hnl, HCR.
    do 4 f_equal. unfold luminance. ring. }
  assert (Ha : forall ps : list R,
             LGNnode.get_response_grating self ori 0 (Array (map Fin ps)) sf
             = Ok (relu (Array (map (fun p => Fin (LGNnode.Rbase self * luminance p))
                                    ps)))).
  { intros ps. rewrite grating_array by assumption. rewrite Hnl, HCR.
    do 3 f_equal. apply map_ext. intros p. f_equal. unfold luminance. ring. }
  split; [split; assumption |].
  intros Hb. split.
  - intros p. rewrite Hs, Hb. split.
    + do 4 f_equal. ring.
    + rewrite relu_scalar_fin, positive_part_id by lra. reflexivity.
  - intros ps. rewrite Ha, relu_array_fin. do 2 f_equal.
    apply map_ext. intros p. f_equal. rewrite Hb.
    apply positive_part_zero. lra.
Qed.

(** ** Curves of finite non-negative values *)

Lemma nonneg_curve_ge0 (n : nat) (xs : list float64) :
  nonneg_curve n xs -> length xs = n /\ Forall ge0 xs.
Proof.
  intros (rs & -> & Hn & Hrs). split.
  - rewrite length_map. exact Hn.
  - apply Forall_map. eapply Forall_impl; [| exact Hrs]. intros r Hr. exact Hr.
Qed.

Lemma nonneg_curve_map (A : Type) (g : A -> R) (ps : list A) :
  (forall p, 0 <= g p) ->
  nonneg_curve (length ps) (map (fun p => Fin (g p)) ps).
Proof.
  intros Hg. exists (map g ps). rewrite map_map, length_map.
  repeat split. apply Forall_map. apply Forall_forall. intros p _. apply Hg.
Qed.

Lemma add_arrays_fin (rs ss : list R) :
  length rs = length ss ->
  add_arrays (map Fin rs) (map Fin ss)
  = map Fin (map (fun rs => fst rs + snd rs) (combine rs ss)).
Proof.
  revert ss. induction rs as [| r rs IH]; intros [| s ss] H; cbn in *;
    try reflexivity; try discriminate.
  rewrite IH by lia. reflexivity.
Qed.

Lemma iadd_nonneg (n : nat) (a ys : list float64) :
  nonneg_curve n a -> nonneg_curve n ys ->
  exists r, iadd a (Array ys) = Ok r /\ nonneg_curve n r.
Proof.
  intros (rs & -> & Hn & Hrs) (ss & -> & Hm & Hss).
  exists (add_arrays (map Fin rs) (map Fin ss)). split.
  - unfold iadd. rewrite !length_map, Hn, Hm, Nat.eqb_refl. reflexivity.
  - rewrite add_arrays_fin by lia.
    exists (map (fun rs => fst rs + snd rs) (combine rs ss)).
    split; [reflexivity |]. split.
    + rewrite length_map, length_combine. lia.
    + apply Forall_map. apply Forall_forall. intros [r s] Hin. cbn.
      pose proof (in_combine_l _ _ _ _ Hin) as Hr.
      pose proof (in_combine_r _ _ _ _ Hin) as Hs.
      rewrite Forall_forall in Hrs, Hss.
      specialize (Hrs r Hr). specialize (Hss s Hs). lra.
Qed.

Lemma accumulate_nonneg (f : LGNnode.t -> outcome value) (n : nat)
  (items : list LGNnode.t) :
  Forall (fun u => exists ys, f u = Ok (Array ys) /\ nonneg_curve n ys) items ->
  forall _resp, nonneg_curve n _resp ->
  exists r, V1node.accumulate f items _resp = Ok r /\ nonneg_curve n r.
Proof.
  induction 1 as [| u items (ys & Hf & Hys) _ IH]; intros _resp Hresp.
  - exists _resp. split; [reflexivity | exact Hresp].
  - destruct (iadd_nonneg n _resp ys Hresp Hys) as (r & Hr & Hnr).
    cbn. rewrite Hf. cbn [bind]. rewrite Hr. cbn [bind]. apply IH. exact Hnr.
Qed.

Lemma mean_nonneg (n k : nat) (xs : list float64) :
  k <> O -> nonneg_curve n xs -> nonneg_curve n (V1node.mean xs k).
Proof.
  intros Hk (rs & -> & Hn & Hrs).
  assert (HK : 0 < INR k) by (apply lt_0_INR; lia).
  exists (map (fun r => r / INR k) rs). split.
  - unfold V1node.mean. rewrite !map_map. apply map_ext. intros r.
    apply div_fin. lra.
  - split; [rewrite length_map; exact Hn |].
    apply Forall_map. eapply Forall_impl; [| exact Hrs]. cbn. intros r Hr.
    apply Rmult_le_pos; [exact Hr | left; apply Rinv_0_lt_compat; exact HK].
Qed.

Lemma zeros_ok (length : Z) :
  (0 <= length)%Z -> zeros length = Ok (repeat (Fin 0) (Z.to_nat length)).
Proof.
  intros H. unfold zeros. destruct (Z.ltb_spec length 0); [lia | reflexivity].
Qed.

Lemma zeros_nonneg (n : nat) : nonneg_curve n (repeat (Fin 0) n).
Proof.
  exists (repeat 0 n). rewrite map_repeat, repeat_length. repeat split.
  apply Forall_forall. intros r Hr. apply repeat_spec in Hr. lra.
Qed.

Lemma linspace_fin (start stop : R) (num : nat) :
  exists ps, linspace start stop num = map Fin ps /\ length ps = num.
Proof.
  destruct num as [| [| div]].
  - exists []. split; reflexivity.
  - exists [start]. split; reflexivity.
  - exists (map (fun i => INR i * ((stop - start) / INR (S div)) + start)
                (seq 0 (S div)) ++ [stop]).
    split.
    + unfold linspace. rewrite map_app, map_map. reflexivity.
    + rewrite length_app, length_map, length_seq. cbn. lia.
Qed.

Lemma steps_fin (length : Z) :
  (1 <= length)%Z ->
  exists ps, V1node.steps length = Ok (map Fin ps)
             /\ List.length ps = Z.to_nat length.
Proof.
  intros H. unfold V1node.steps.
  rewrite py_div_ok by (apply not_0_IZR; lia). cbn [bind].
  destruct (linspace_fin 0 (2 * PI * (1 - 1 / IZR length)) (Z.to_nat length))
    as (ps & E & L).
  exists ps. rewrite E. split; [reflexivity | exact L].
Qed.

Lemma phases_fin (phase : R) (ps : list R) :
  map (fun s => add s (Fin phase)) (map Fin ps)
  = map Fin (map (fun p => p + phase) ps).
Proof. rewrite !map_map. reflexivity. Qed.

(** ** Claims on the population model *)

(** C1, as stated, fails: the aggregation has no check of the subunit list.
    With no subunit and one sample the sum [0.] is divided by [len = 0] with
    NumPy's division, and the call returns the curve [[nan]]; it raises
    nothing. *)
Lemma empty_population_one_sample :
  V1node.get_response_grating (V1node.Build [] relu) 1 0
    (V1node.GratingKw None None None) = Ok [NaN]
  /\ (forall e : exn,
        V1node.get_response_grating (V1node.Build [] relu) 1 0
          (V1node.GratingKw None None None) <> Raise e).
Proof.
  assert (E : V1node.get_response_grating (V1node.Build [] relu) 1 0
                (V1node.GratingKw None None None) = Ok [NaN]).
  { unfold V1node.get_response_grating, V1node.steps.
    rewrite zeros_ok by lia. rewrite py_div_ok by lra.
    cbn [bind V1node.subunits V1node.accumulate List.length].
    change (Z.to_nat 1) with 1%nat. unfold V1node.mean. cbn [repeat map INR].
    rewrite div_zero_zero. reflexivity. }
  split; [exact E |]. intros e. rewrite E. discriminate.
Qed.

(** C1, amended.  For a population without subunits and every length [>= 1],
    initial phase and stimulus, both aggregations return, without an error,
    the curve of [length] entries that are all [nan]. *)
Theorem empty_population_returns_nan (nl : value -> value) (length : Z)
  (phase : R) (gkw : V1node.grating_kwargs) (pkw : V1node.plaid_kwargs) :
  (1 <= length)%Z ->
  V1node.get_response_grating (V1node.Build [] nl) length phase gkw
  = Ok (repeat NaN (Z.to_nat length))
  /\ V1node.get_response_plaid (V1node.Build [] nl) length phase pkw
     = Ok (repeat NaN (Z.to_nat length)).
Proof.
  intros H. destruct (steps_fin length H) as (ps & Hs & _).
  unfold V1node.get_response_grating, V1node.get_response_plaid.
  rewrite zeros_ok, Hs by lia. cbn [bind V1node.subunits V1node.accumulate].
  unfold V1node.mean. rewrite map_repeat. cbn [List.length INR].
  rewrite div_zero_zero. split; reflexivity.
Qed.

(** C2.  The nonlinearity of the population model takes no part in the
    aggregation: two populations over the same subunits return the same
    grating and plaid curves (or raise the same error) whatever their own
    nonlinearities are. *)
Theorem population_nonlinearity_unused (nl1 nl2 : value -> value)
  (subunits : list LGNnode.t) (length : Z) (phase : R)
  (gkw : V1node.grating_kwargs) (pkw : V1node.plaid_kwargs) :
  V1node.get_response_grating (V1node.Build subunits nl1) length phase gkw
  = V1node.get_response_grating (V1node.Build subunits nl2) length phase gkw
  /\ V1node.get_response_plaid (V1node.Build subunits nl1) length phase pkw
     = V1node.get_response_plaid (V1node.Build subunits nl2) length phase pkw.
Proof. split; reflexivity. Qed.

(** ** Non-negativity under [relu] *)

Lemma modulus_zero_contrasts (self : LGNnode.t) (ori1 ori2 Δphase sf : R) :
  modulus (plaid_vector self ori1 ori2 0 0 Δphase sf) = 0.
Proof.
  unfold modulus, plaid_vector. cbn [fst snd].
  transitivity (sqrt 0); [f_equal; ring | apply sqrt_0].
Qed.

(** C10, as stated for any parameters, fails where the arithmetic leaves the
    finite numbers, because [relu] keeps [nan] ([nan < 0] is false) and
    [nan >= 0] is false:
    - the default subunit answers [nan] to the grating of spatial frequency
      0 (the phase offset is [0/0] in NumPy's division);
    - the subunit built with [C50 = 0] answers [nan] to the plaid of
      contrasts 0 (the contrast response is [0/0]). *)
Lemma relu_nan_responses :
  (LGNnode.nonlinear (default_subunit relu) = relu
   /\ 0 < LGNnode.C50 (default_subunit relu)
   /\ LGNnode.get_response_grating (default_subunit relu) 0
        LGNnode.default_contrast (Scalar (Fin 0)) 0
      = Ok (Scalar NaN))
  /\ (LGNnode.nonlinear degenerate_subunit = relu
      /\ LGNnode.get_response_plaid degenerate_subunit 0 0 0 0
           (Scalar (Fin 0)) 0 50
         = Ok (Scalar NaN))
  /\ ~ all_ge0 (Scalar NaN).
Proof.
  split; [| split; [| intros H; exact H]].
  - split; [reflexivity |]. split.
    + cbn. unfold LGNnode.default_C50. lra.
    + rewrite grating_sf_zero_nan; [reflexivity |].
      cbn. unfold LGNnode.default_contrast, LGNnode.default_C50. lra.
  - split; [reflexivity |].
    rewrite plaid_respond.
    rewrite sinusoidal_plaid_fin by lra. rewrite modulus_zero_contrasts.
    unfold respond, LGNnode.default_order, LGNnode._get_contrast_response.
    cbn [fst snd].
    rewrite py_pow_1, !pow_fin_1. cbn [bind mul add LGNnode.Rmax LGNnode.C50
      degenerate_subunit].
    replace (LGNnode.default_Rmax * 0) with 0 by ring.
    replace (0 + 0) with 0 by ring.
    rewrite div_zero_zero. reflexivity.
Qed.

(** The curve of a [relu] subunit over finite phases. *)
Lemma relu_grating_curve (self : LGNnode.t) (ori c sf : R) (ps : list R) :
  LGNnode.nonlinear self = relu ->
  sf <> 0 ->
  c + LGNnode.C50 self <> 0 ->
  exists ys, LGNnode.get_response_grating self ori c (Array (map Fin ps)) sf
             = Ok (Array ys)
             /\ nonneg_curve (length ps) ys.
Proof.
  intros Hnl Hsf Hc. rewrite grating_array by assumption.
  rewrite Hnl, relu_array_fin. eexists. split; [reflexivity |].
  apply nonneg_curve_map. intros p. apply positive_part_nonneg.
Qed.

Lemma relu_plaid_curve (self : LGNnode.t)
  (ori1 ori2 contrast1 contrast2 Δphase sf : R) (ps : list R) :
  LGNnode.nonlinear self = relu ->
  0 < LGNnode.C50 self ->
  sf <> 0 ->
  exists ys, LGNnode.get_response_plaid self ori1 ori2 contrast1 contrast2
               (Array (map Fin ps)) Δphase sf
             = Ok (Array ys)
             /\ nonneg_curve (length ps) ys.
Proof.
  intros Hnl HC50 Hsf. rewrite plaid_array by assumption.
  rewrite Hnl, relu_array_fin. eexists. split; [reflexivity |].
  apply nonneg_curve_map. intros p. apply positive_part_nonneg.
Qed.

(** The pooled curve of subunits that each return a finite non-negative
    curve over the phase samples. *)
Lemma pooled_nonneg (f : list float64 -> LGNnode.t -> outcome value)
  (subunits : list LGNnode.t) (length : Z) (phase : R) :
  subunits <> [] ->
  (1 <= length)%Z ->
  (forall ps : list R,
     Forall (fun u => exists ys, f (map Fin ps) u = Ok (Array ys)
                                 /\ nonneg_curve (List.length ps) ys)
            subunits) ->
  exists curve,
    (_resp <- zeros length ;;
     _step <- V1node.steps length ;;
     _resp <- V1node.accumulate
                (f (map (fun s => add s (Fin phase)) _step)) subunits _resp ;;
     Ok (V1node.mean _resp (List.length subunits))) = Ok curve
    /\ nonneg_curve (Z.to_nat length) curve.
Proof.
  intros Hne Hlen Hf.
  destruct (steps_fin length Hlen) as (ps & Hs & Hps).
  rewrite zeros_ok, Hs by lia. cbn [bind]. rewrite phases_fin.
  specialize (Hf (map (fun p => p + phase) ps)).
  rewrite length_map, Hps in Hf.
  destruct (accumulate_nonneg _ _ _ Hf _ (zeros_nonneg (Z.to_nat length)))
    as (r & Hr & Hnr).
  rewrite Hr. cbn [bind]. eexists. split; [reflexivity |].
  apply mean_nonneg; [| exact Hnr].
  destruct subunits; [contradiction | discriminate].
Qed.

(** C10, amended.  With the [relu] nonlinearity, a spatial frequency
    [sf <> 0] and finite phases:
    - the grating response of a subunit, at a contrast [c] with
      [c + C50 <> 0], is returned and is [>= 0] in every entry;
    - the plaid response of a subunit with [C50 > 0] is returned and is
      [>= 0] in every entry;
    - for a population over a non-empty list of such subunits and a length
      [>= 1], the grating and the plaid curve are returned, have [length]
      entries, and every entry is [>= 0]. *)
Theorem relu_responses_nonneg :
  (forall (self : LGNnode.t) (ori c sf : R),
     LGNnode.nonlinear self = relu -> sf <> 0 -> c + LGNnode.C50 self <> 0 ->
     (forall p : R, exists v,
        LGNnode.get_response_grating self ori c (Scalar (Fin p)) sf = Ok v
        /\ all_ge0 v)
     /\ (forall ps : list R, exists v,
           LGNnode.get_response_grating self ori c (Array (map Fin ps)) sf = Ok v
           /\ all_ge0 v))
  /\ (forall (self : LGNnode.t) (ori1 ori2 contrast1 contrast2 Δphase sf : R),
        LGNnode.nonlinear self = relu -> sf <> 0 -> 0 < LGNnode.C50 self ->
        (forall p : R, exists v,
           LGNnode.get_response_plaid self ori1 ori2 contrast1 contrast2
             (Scalar (Fin p)) Δphase sf = Ok v
           /\ all_ge0 v)
        /\ (forall ps : list R, exists v,
              LGNnode.get_response_plaid self ori1 ori2 contrast1 contrast2
                (Array (map Fin ps)) Δphase sf = Ok v
              /\ all_ge0 v))
  /\ (forall (pop : V1node.t) (length : Z) (phase : R),
        V1node.subunits pop <> [] ->
        (1 <= length)%Z ->
        Forall (fun u => LGNnode.nonlinear u = relu /\ 0 < LGNnode.C50 u)
               (V1node.subunits pop) ->
        (forall kw : V1node.grating_kwargs,
           V1node.or_default LGNnode.default_sf (V1node.sf kw) <> 0 ->
           Forall (fun u =>
                     V1node.or_default LGNnode.default_contrast
                       (V1node.contrast kw) + LGNnode.C50 u <> 0)
                  (V1node.subunits pop) ->
           exists curve,
             V1node.get_response_grating pop length phase kw = Ok curve
             /\ List.length curve = Z.to_nat length
             /\ Forall ge0 curve)
        /\ (forall kw : V1node.plaid_kwargs,
              V1node.or_default LGNnode.default_sf (V1node.plaid_sf kw) <> 0 ->
              exists curve,
                V1node.get_response_plaid pop length phase kw = Ok curve
                /\ List.length curve = Z.to_nat length
                /\ Forall ge0 curve)).
Proof.
  split; [| split].
  - intros self ori c sf Hnl Hsf Hc. split.
    + intros p. rewrite grating_scalar by assumption.
      rewrite Hnl, relu_scalar_fin. eexists. split; [reflexivity |].
      cbn. apply positive_part_nonneg.
    + intros ps.
      destruct (relu_grating_curve self ori c sf ps Hnl Hsf Hc) as (ys & E & N).
      exists (Array ys). split; [exact E |]. apply (nonneg_curve_ge0 _ _ N).
  - intros self ori1 ori2 contrast1 contrast2 Δphase sf Hnl Hsf HC50. split.
    + intros p. rewrite plaid_scalar by assumption.
      rewrite Hnl, relu_scalar_fin. eexists. split; [reflexivity |].
      cbn. apply positive_part_nonneg.
    + intros ps.
      destruct (relu_plaid_curve self ori1 ori2 contrast1 contrast2 Δphase sf ps
                  Hnl HC50 Hsf) as (ys & E & N).
      exists (Array ys). split; [exact E |]. apply (nonneg_curve_ge0 _ _ N).
  - intros pop length phase Hne Hlen Hall. split.
    + intros kw Hsf Hc.
      destruct (pooled_nonneg
                  (fun phases item =>
                     LGNnode.get_response_grating item
                       (V1node.or_default LGNnode.default_ori (V1node.ori kw))
                       (V1node.or_default LGNnode.default_contrast
                          (V1node.contrast kw))
                       (Array phases)
                       (V1node.or_default LGNnode.default_sf (V1node.sf kw)))
                  (V1node.subunits pop) length phase Hne Hlen)
        as (curve & E & N).
      { intros ps. rewrite Forall_forall in *. intros u Hu.
        apply relu_grating_curve; [apply (Hall u Hu) | exact Hsf | apply (Hc u Hu)]. }
      exists curve. split; [exact E |]. apply (nonneg_curve_ge0 _ _ N).
    + intros kw Hsf.
      destruct (pooled_nonneg
                  (fun phases item =>
                     LGNnode.get_response_plaid item
                       (V1node.or_default LGNnode.default_ori (V1node.ori1 kw))
                       (V1node.or_default LGNnode.default_ori (V1node.ori2 kw))
                       (V1node.or_default LGNnode.default_contrast
                          (V1node.contrast1 kw))
                       (V1node.or_default LGNnode.default_contrast
                          (V1node.contrast2 kw))
                       (Array phases)
                       (V1node.or_default LGNnode.default_Δphase (V1node.Δphase kw))
                       (V1node.or_default LGNnode.default_sf (V1node.plaid_sf kw)))
                  (V1node.subunits pop) length phase Hne Hlen)
        as (curve & E & N).
      { intros ps. rewrite Forall_forall in *. intros u Hu.
        apply relu_plaid_curve; [apply (Hall u Hu) | apply (Hall u Hu) | exact Hsf]. }
      exists curve. split; [exact E |]. apply (nonneg_curve_ge0 _ _ N).
Qed.

(** ** The theorems at concrete inputs *)

Lemma default_C50_pos (nl : value -> value) :
  0 < LGNnode.C50 (default_subunit nl).
Proof. cbn. unfold LGNnode.default_C50. lra. Defined.

Lemma default_sf_nonzero : LGNnode.default_sf <> 0.
Proof. unfold LGNnode.default_sf. lra. Defined.

Lemma default_contrast_defined (nl : value -> value) :
  LGNnode.default_contrast + LGNnode.C50 (default_subunit nl) <> 0.
Proof.
  cbn. unfold LGNnode.default_contrast, LGNnode.default_C50. lra.
Defined.

Lemma empty_population_returns_nan_witness :
  (1 <= 3)%Z
  /\ V1node.get_response_grating (V1node.Build [] relu) 3 0 no_grating_kwargs
     = Ok [NaN; NaN; NaN]
  /\ V1node.get_response_plaid (V1node.Build [] relu) 3 0 no_plaid_kwargs
     = Ok [NaN; NaN; NaN].
Proof.
  assert (H : (1 <= 3)%Z) by lia.
  split; [exact H |].
  exact (empty_population_returns_nan relu 3 0 no_grating_kwargs
           no_plaid_kwargs H).
Defined.

Lemma grating_response_formula_witness :
  LGNnode.default_sf <> 0
  /\ LGNnode.get_response_grating (default_subunit relu) LGNnode.default_ori
       LGNnode.default_contrast (Scalar (Fin (PI / 2))) LGNnode.default_sf
     = Ok (relu (Scalar (Fin (CR (default_subunit relu) LGNnode.default_contrast
                              * 2
                              * Rtrigo_def.sin
                                  (phase_offset (default_subunit relu)
                                     LGNnode.default_ori LGNnode.default_sf
                                   + PI / 2))))).
Proof.
  split; [exact default_sf_nonzero |].
  exact (proj1 (proj1 (grating_response_formula (default_subunit relu)
                         LGNnode.default_ori LGNnode.default_contrast
                         LGNnode.default_sf default_sf_nonzero)
                  (default_contrast_defined relu))
           (PI / 2)).
Defined.




Lemma grating_zero_contrast_witness :
  LGNnode.nonlinear (default_subunit relu) = relu
  /\ 0 < LGNnode.C50 (default_subunit relu)
  /\ LGNnode.default_sf <> 0
  /\ LGNnode.get_response_grating (default_subunit relu) 0 0
       (Scalar (Fin (PI / 2))) LGNnode.default_sf
     = Ok (relu (Scalar (Fin 0))).
Proof.
  split; [reflexivity |].
  split; [exact (default_C50_pos relu) |].
  split; [exact default_sf_nonzero |].
  exact (proj1 (proj1 (proj2 (grating_zero_contrast (default_subunit relu) 0
                                LGNnode.default_sf eq_refl
                                (default_C50_pos relu) default_sf_nonzero)
                         eq_refl)
                  (PI / 2))).
Defined.

Lemma half_power_representable : representable (Rpower (1 / 2) (3 / 2)).
Proof.
  destruct thresholds as (Hu0 & Hu & Ho).
  assert (Hln : ln (1 / 2) < 0).
  { rewrite <- ln_1. apply ln_increasing; lra. }
  assert (Hlo : / 4 < Rpower (1 / 2) (3 / 2)).
  { replace (/ 4) with (Rpower (1 / 2) (INR 2)).
    - unfold Rpower. apply exp_increasing. simpl INR. nra.
    - rewrite Rpower_pow by lra. simpl. field. }
  assert (Hhi : Rpower (1 / 2) (3 / 2) < 1).
  { assert (H : Rtrigo_def.exp (3 / 2 * ln (1 / 2)) < Rtrigo_def.exp 0)
      by (apply exp_increasing; nra).
    rewrite exp_0 in H. exact H. }
  unfold representable. rewrite Rabs_pos_eq by lra. lra.
Qed.

Lemma contrast_response_at_zero_witness :
  0 < LGNnode.C50 (default_subunit relu)
  /\ 0 < 3 / 2
  /\ representable (Rpower (LGNnode.C50 (default_subunit relu)) (3 / 2))
  /\ LGNnode._get_contrast_response (default_subunit relu) (PyFloat 0) (3 / 2)
     = Ok (PyFloat 0).
Proof.
  assert (H : 0 < 3 / 2) by lra.
  split; [exact (default_C50_pos relu) |].
  split; [exact H |].
  split; [exact half_power_representable |].
  exact (proj1 (contrast_response_at_zero (default_subunit relu) (3 / 2)
                  (default_C50_pos relu) H half_power_representable)).
Defined.

Lemma plaid_contrast2_zero_witness :
  0 < LGNnode.C50 (default_subunit relu)
  /\ LGNnode.default_sf <> 0
  /\ 0 < 1
  /\ LGNnode.get_response_plaid (default_subunit relu) 0 1 1 0
       (Array [Fin 0; Fin 1]) 2 LGNnode.default_sf
     = LGNnode.get_response_grating (default_subunit relu) 0 1
         (Array [Fin 0; Fin 1]) LGNnode.default_sf.
Proof.
  split; [exact (default_C50_pos relu) |].
  split; [exact default_sf_nonzero |].
  split; [exact Rlt_0_1 |].
  exact (plaid_contrast2_zero (default_subunit relu) 0 1 1 2 LGNnode.default_sf
           (Array [Fin 0; Fin 1]) (default_C50_pos relu) default_sf_nonzero
           Rlt_0_1).
Defined.

Lemma plaid_constructive_interference_witness :
  0 < LGNnode.C50 (default_subunit relu)
  /\ LGNnode.default_sf <> 0
  /\ 0 < 1
  /\ LGNnode.get_response_plaid (default_subunit relu) 0 0 1 1
       (Scalar (Fin 0)) 0 LGNnode.default_sf
     = LGNnode.get_response_grating (default_subunit relu) 0 (2 * 1)
         (Scalar (Fin 0)) LGNnode.default_sf.
Proof.
  split; [exact (default_C50_pos relu) |].
  split; [exact default_sf_nonzero |].
  split; [exact Rlt_0_1 |].
  exact (plaid_constructive_interference (default_subunit relu) 0 1
           LGNnode.default_sf (Scalar (Fin 0)) (default_C50_pos relu)
           default_sf_nonzero Rlt_0_1).
Defined.

Lemma default_Rmax_nonneg (nl : value -> value) :
  0 <= LGNnode.Rmax (default_subunit nl).
Proof. cbn. unfold LGNnode.default_Rmax. lra. Defined.

Lemma contrast_response_monotone_witness :
  0 <= LGNnode.Rmax (default_subunit relu)
  /\ 0 < LGNnode.C50 (default_subunit relu)
  /\ 0 <= 0 /\ 0 <= 1 /\ 1 <= 1
  /\ exists r1 r2 : R,
       LGNnode._get_contrast_response (default_subunit relu) (PyFloat 0) 1
       = Ok (PyFloat r1)
       /\ LGNnode._get_contrast_response (default_subunit relu) (PyFloat 1) 1
          = Ok (PyFloat r2)
       /\ LGNnode._get_contrast_response (default_subunit relu)
            (NpFloat (Fin 0)) 1 = Ok (NpFloat (Fin r1))
       /\ LGNnode._get_contrast_response (default_subunit relu)
            (NpFloat (Fin 1)) 1 = Ok (NpFloat (Fin r2))
       /\ r1 <= r2.
Proof.
  split; [exact (default_Rmax_nonneg relu) |].
  split; [exact (default_C50_pos relu) |].
  split; [exact (Rle_refl 0) |].
  split; [exact Rle_0_1 |].
  split; [exact (Rle_refl 1) |].
  exact (contrast_response_monotone (default_subunit relu) 0 1
           (default_Rmax_nonneg relu) (default_C50_pos relu)
           (Rle_refl 0) Rle_0_1 (Rle_refl 1)).
Defined.

Lemma relu_responses_nonneg_witness :
  let pop := V1node.Build [default_subunit relu] relu in
  V1node.subunits pop <> []
  /\ (1 <= 2)%Z
  /\ Forall (fun u => LGNnode.nonlinear u = relu /\ 0 < LGNnode.C50 u)
            (V1node.subunits pop)
  /\ (exists curve,
        V1node.get_response_grating pop 2 0 no_grating_kwargs = Ok curve
        /\ List.length curve = Z.to_nat 2
        /\ Forall ge0 curve)
  /\ (exists curve,
        V1node.get_response_plaid pop 2 0 no_plaid_kwargs = Ok curve
        /\ List.length curve = Z.to_nat 2
        /\ Forall ge0 curve).
Proof.
  intros pop.
  assert (Hne : V1node.subunits pop <> []) by discriminate.
  assert (Hlen : (1 <= 2)%Z) by lia.
  assert (Hall : Forall (fun u => LGNnode.nonlinear u = relu /\ 0 < LGNnode.C50 u)
                        (V1node.subunits pop)).
  { constructor; [| constructor]. split; [reflexivity | exact (default_C50_pos relu)]. }
  split; [exact Hne |]. split; [exact Hlen |]. split; [exact Hall |].
  split.
  - apply (proj1 (proj2 (proj2 relu_responses_nonneg) pop 2%Z 0 Hne Hlen Hall)
             no_grating_kwargs default_sf_nonzero).
    constructor; [| constructor]. exact (default_contrast_defined relu).
  - exact (proj2 (proj2 (proj2 relu_responses_nonneg) pop 2%Z 0 Hne Hlen Hall)
             no_plaid_kwargs default_sf_nonzero).
Defined.

(** * Further properties of the code *)

(** ** More on the contrast-response transform *)

(** A power of a base [>= 0] at an order [>= 0] that does not overflow:
    Python and NumPy return the same number [>= 0]. *)
Lemma power_nonneg_base (c y : R) :
  0 <= c -> 0 <= y ->
  c = 0 \/ Rpower c y < overflow_threshold ->
  exists x : R,
    0 <= x /\ py_pow c y = Ok (PyR x) /\ pow (Fin c) y = Fin x.
Proof.
  intros Hc Hy Ho. destruct thresholds as (Hu0 & _ & _).
  unfold py_pow, pow.
  destruct (Req_dec_T y 0); [exists 1; repeat split; lra |].
  destruct (Req_dec_T y 1); [exists c; repeat split; assumption |].
  destruct (Req_dec_T c 0) as [E | N].
  - destruct (Rlt_dec 0 y); [| lra]. exists 0. repeat split; lra.
  - destruct (Rlt_dec 0 c); [| lra]. destruct Ho as [E | Ho]; [contradiction |].
    pose proof (Rpower_pos c y) as Hp.
    unfold py_range, np_range. rewrite Rabs_pos_eq by lra.
    destruct (Rle_dec overflow_threshold (Rpower c y)); [lra |].
    destruct (Rle_dec (Rpower c y) underflow_threshold).
    + exists 0. repeat split; lra.
    + exists (Rpower c y). repeat split; lra.
Qed.

(** Half saturation.  For [C50 > 0] and every order at which
    [C50 ** order] neither overflows nor is rounded to 0, the
    contrast-response transform at [contrast = C50] is [Rmax / 2 + Rbase],
    for a Python contrast and for a [float64] contrast. *)
Theorem contrast_response_half_saturation (self : LGNnode.t) (order : R) :
  0 < LGNnode.C50 self ->
  representable (Rpower (LGNnode.C50 self) order) ->
  LGNnode._get_contrast_response self (PyFloat (LGNnode.C50 self)) order
  = Ok (PyFloat (LGNnode.Rmax self / 2 + LGNnode.Rbase self))
  /\ LGNnode._get_contrast_response self (NpFloat (Fin (LGNnode.C50 self))) order
     = Ok (NpFloat (Fin (LGNnode.Rmax self / 2 + LGNnode.Rbase self))).
Proof.
  intros HC50 Hr.
  pose proof (Rpower_pos (LGNnode.C50 self) order) as Hp.
  unfold LGNnode._get_contrast_response.
  rewrite !py_pow_pos_base, !pow_pos_base by assumption.
  cbn [bind num_mul num_add num_div mul add]. split.
  - rewrite py_div_ok by lra. cbn [bind num_add of_pynum]. do 3 f_equal.
    field. lra.
  - rewrite div_fin by lra. cbn [add]. do 4 f_equal. field. lra.
Qed.

(** Saturation.  For [Rmax >= 0], [C50 > 0], a contrast [c >= 0] and an
    order [>= 0] at which [c ** order] does not overflow and [C50 ** order]
    neither overflows nor is rounded to 0, the contrast-response transform
    returns a value between [Rbase] and [Rmax + Rbase]. *)
Theorem contrast_response_bounded (self : LGNnode.t) (c order : R) :
  0 <= LGNnode.Rmax self ->
  0 < LGNnode.C50 self ->
  0 <= c ->
  0 <= order ->
  c = 0 \/ Rpower c order < overflow_threshold ->
  representable (Rpower (LGNnode.C50 self) order) ->
  exists r : R,
    LGNnode._get_contrast_response self (PyFloat c) order = Ok (PyFloat r)
    /\ LGNnode._get_contrast_response self (NpFloat (Fin c)) order
       = Ok (NpFloat (Fin r))
    /\ LGNnode.Rbase self <= r <= LGNnode.Rmax self + LGNnode.Rbase self.
Proof.
  intros HR HC50 Hc Ho Hov Hr.
  pose proof (Rpower_pos (LGNnode.C50 self) order) as Hk.
  destruct (power_nonneg_base c order Hc Ho Hov) as (x & Hx & Epy & Enp).
  set (k := Rpower (LGNnode.C50 self) order) in *.
  exists (LGNnode.Rmax self * x / (x + k) + LGNnode.Rbase self).
  unfold LGNnode._get_contrast_response.
  rewrite !Epy, !Enp, py_pow_pos_base by assumption.
  fold k. cbn [bind num_mul num_add num_div mul add].
  rewrite py_div_ok, div_fin by lra. cbn [bind num_add of_pynum add].
  split; [reflexivity |]. split; [reflexivity |].
  assert (Hq : 0 <= x / (x + k) <= 1).
  { split.
    - apply Rmult_le_pos; [exact Hx | left; apply Rinv_0_lt_compat; lra].
    - apply Rmult_le_reg_r with (x + k); [lra |].
      replace (x / (x + k) * (x + k)) with x by (field; lra). lra. }
  replace (LGNnode.Rmax self * x / (x + k))
    with (LGNnode.Rmax self * (x / (x + k))) by (field; lra).
  nra.
Qed.

(** ** More on the subunit responses *)

Lemma luminance_periodic (d x : float64) :
  sin (add d (add x (Fin (2 * PI)))) = sin (add d x).
Proof.
  destruct d as [d | | |], x as [x | | |]; cbn; try reflexivity.
  f_equal. replace (d + (x + 2 * PI)) with (d + x + 2 * PI) by ring.
  rewrite sin_plus, sin_2PI, cos_2PI. ring.
Qed.

Lemma vmap_vmap (f g : float64 -> float64) (v : value) :
  vmap f (vmap g v) = vmap (fun x => f (g x)) v.
Proof. destruct v as [x | xs]; cbn; [reflexivity | rewrite map_map; reflexivity]. Qed.

(** Periodicity in the phase.  Adding 2 pi to the phase, or to every entry
    of an array of phases, changes neither the grating nor the plaid
    response of a subunit, whatever the parameters are. *)
Theorem response_phase_periodic (self : LGNnode.t) (phase : value) :
  let shifted := vmap (fun x => add x (Fin (2 * PI))) phase in
  (forall ori c sf : R,
     LGNnode.get_response_grating self ori c shifted sf
     = LGNnode.get_response_grating self ori c phase sf)
  /\ (forall ori1 ori2 c1 c2 Δphase sf : R,
        LGNnode.get_response_plaid self ori1 ori2 c1 c2 shifted Δphase sf
        = LGNnode.get_response_plaid self ori1 ori2 c1 c2 phase Δphase sf).
Proof.
  intros shifted. split.
  - intros ori c sf. rewrite !grating_respond. unfold LGNnode._get_sinusoidal.
    do 3 f_equal. unfold shifted. rewrite vmap_vmap. apply vmap_ext.
    intros x. apply luminance_periodic.
  - intros ori1 ori2 c1 c2 Δphase sf. rewrite !plaid_respond.
    unfold LGNnode._get_sinusoidal_plaid.
    do 3 f_equal. unfold shifted. rewrite vmap_vmap. apply vmap_ext.
    intros x. apply luminance_periodic.
Qed.

Lemma phase_offset_origin (self : LGNnode.t) (ori sf : R) :
  LGNnode.center self = (0, 0) -> sf <> 0 -> phase_offset self ori sf = 0.
Proof.
  intros Hc Hsf. unfold phase_offset. rewrite Hc. cbn [fst snd]. field. exact Hsf.
Qed.

(** A subunit at the origin.  With [center = (0, 0)] the grating response
    does not depend on the orientation or on the spatial frequency
    ([<> 0]), and the plaid response does not depend on the two orientations
    or on the spatial frequency. *)
Theorem response_at_origin (self : LGNnode.t) (phase : value) (sf sf' : R) :
  LGNnode.center self = (0, 0) ->
  sf <> 0 -> sf' <> 0 ->
  (forall ori ori' c : R,
     LGNnode.get_response_grating self ori c phase sf
     = LGNnode.get_response_grating self ori' c phase sf')
  /\ (forall ori1 ori2 ori1' ori2' c1 c2 Δphase : R,
        LGNnode.get_response_plaid self ori1 ori2 c1 c2 phase Δphase sf
        = LGNnode.get_response_plaid self ori1' ori2' c1 c2 phase Δphase sf').
Proof.
  intros Hc Hsf Hsf'. split.
  - intros ori ori' c. rewrite !grating_respond. unfold LGNnode._get_sinusoidal.
    rewrite !dist_fin, !phase_offset_origin by assumption. reflexivity.
  - intros ori1 ori2 ori1' ori2' c1 c2 Δphase. rewrite !plaid_respond.
    rewrite !sinusoidal_plaid_fin by assumption.
    unfold plaid_vector. rewrite !phase_offset_origin by assumption.
    reflexivity.
Qed.

Lemma CR_range (self : LGNnode.t) (c : R) :
  0 <= LGNnode.Rmax self -> 0 < LGNnode.C50 self -> 0 <= c ->
  LGNnode.Rbase self <= CR self c <= LGNnode.Rmax self + LGNnode.Rbase self.
Proof.
  intros HR HC50 Hc. unfold CR.
  set (k := LGNnode.C50 self) in *.
  assert (Hq : 0 <= c / (c + k) <= 1).
  { split.
    - apply Rmult_le_pos; [exact Hc | left; apply Rinv_0_lt_compat; lra].
    - apply Rmult_le_reg_r with (c + k); [lra |].
      replace (c / (c + k) * (c + k)) with c by (field; lra). lra. }
  replace (LGNnode.Rmax self * c / (c + k))
    with (LGNnode.Rmax self * (c / (c + k))) by (field; lra).
  nra.
Qed.

Lemma rectified_bound (a s : R) :
  0 <= a -> 0 <= positive_part (a * 2 * Rtrigo_def.sin s) <= 2 * a.
Proof.
  intros Ha. pose proof (SIN_bound s) as [Hl Hu].
  unfold positive_part. destruct (Rlt_dec (a * 2 * Rtrigo_def.sin s) 0); nra.
Qed.

(** Range of the rectified responses.  For a [relu] subunit with
    [Rmax >= 0], [Rbase >= 0] and [C50 > 0], a spatial frequency [<> 0] and
    non-negative contrasts, the grating and the plaid response at a finite
    phase are finite and lie between 0 and [2 (Rmax + Rbase)]. *)
Theorem relu_response_range (self : LGNnode.t) (sf p : R) :
  LGNnode.nonlinear self = relu ->
  0 <= LGNnode.Rmax self ->
  0 <= LGNnode.Rbase self ->
  0 < LGNnode.C50 self ->
  sf <> 0 ->
  (forall ori c : R,
     0 <= c ->
     exists r : R,
       LGNnode.get_response_grating self ori c (Scalar (Fin p)) sf
       = Ok (Scalar (Fin r))
       /\ 0 <= r <= 2 * (LGNnode.Rmax self + LGNnode.Rbase self))
  /\ (forall ori1 ori2 c1 c2 Δphase : R,
        exists r : R,
          LGNnode.get_response_plaid self ori1 ori2 c1 c2 (Scalar (Fin p))
            Δphase sf
          = Ok (Scalar (Fin r))
          /\ 0 <= r <= 2 * (LGNnode.Rmax self + LGNnode.Rbase self)).
Proof.
  intros Hnl HR HB HC50 Hsf. split.
  - intros ori c Hc.
    pose proof (CR_range self c HR HC50 Hc) as [Hlo Hhi].
    rewrite grating_scalar by (assumption || lra).
    rewrite Hnl, relu_scalar_fin. eexists. split; [reflexivity |].
    pose proof (rectified_bound (CR self c)
                  (phase_offset self ori sf + p)) as Hb.
    lra.
  - intros ori1 ori2 c1 c2 Δphase.
    set (v := plaid_vector self ori1 ori2 c1 c2 Δphase sf).
    pose proof (CR_range self (modulus v) HR HC50 (modulus_nonneg v)) as [Hlo Hhi].
    rewrite plaid_scalar by assumption.
    rewrite Hnl, relu_scalar_fin. eexists. split; [reflexivity |].
    fold v.
    pose proof (rectified_bound (CR self (modulus v)) (arg v + p)) as Hb.
    lra.
Qed.

(** The two components of a plaid can be exchanged.  With [Δphase = 0] and
    a spatial frequency [<> 0], the plaid response at [(ori1, contrast1)],
    [(ori2, contrast2)] is the plaid response at [(ori2, contrast2)],
    [(ori1, contrast1)], for every phase. *)
Theorem plaid_components_commute (self : LGNnode.t) (ori1 ori2 c1 c2 sf : R)
  (phase : value) :
  sf <> 0 ->
  LGNnode.get_response_plaid self ori1 ori2 c1 c2 phase 0 sf
  = LGNnode.get_response_plaid self ori2 ori1 c2 c1 phase 0 sf.
Proof.
  intros Hsf. rewrite !plaid_respond, !sinusoidal_plaid_fin by exact Hsf.
  replace (plaid_vector self ori2 ori1 c2 c1 0 sf)
    with (plaid_vector self ori1 ori2 c1 c2 0 sf); [reflexivity |].
  unfold plaid_vector. rewrite !Rplus_0_r. f_equal; ring.
Qed.

(** Half-wave rectification.  For a [relu] subunit, [sf <> 0] and a
    contrast with [c + C50 <> 0], the grating responses at the phases [p]
    and [p + pi] are never both positive, and their difference is the
    unrectified response [CR c * 2 * sin (ϕ + p)]. *)
Theorem relu_opposite_phases (self : LGNnode.t) (ori c sf p : R) :
  LGNnode.nonlinear self = relu ->
  sf <> 0 ->
  c + LGNnode.C50 self <> 0 ->
  exists r1 r2 : R,
    LGNnode.get_response_grating self ori c (Scalar (Fin p)) sf
    = Ok (Scalar (Fin r1))
    /\ LGNnode.get_response_grating self ori c (Scalar (Fin (p + PI))) sf
       = Ok (Scalar (Fin r2))
    /\ (r1 = 0 \/ r2 = 0)
    /\ r1 - r2 = CR self c * 2 * Rtrigo_def.sin (phase_offset self ori sf + p).
Proof.
  intros Hnl Hsf Hc. rewrite !grating_scalar by assumption.
  rewrite Hnl, !relu_scalar_fin.
  replace (phase_offset self ori sf + (p + PI))
    with (phase_offset self ori sf + p + PI) by ring.
  rewrite neg_sin.
  set (x := CR self c * 2 * Rtrigo_def.sin (phase_offset self ori sf + p)).
  replace (CR self c * 2 * - Rtrigo_def.sin (phase_offset self ori sf + p))
    with (- x) by (unfold x; ring).
  exists (positive_part x), (positive_part (- x)).
  split; [reflexivity |]. split; [reflexivity |].
  unfold positive_part.
  destruct (Rlt_dec x 0), (Rlt_dec (- x) 0); split; try lra;
    try (left; lra); try (right; lra).
Qed.

(** ** More on [nonlinearity.py] *)

Lemma rectify_entry_idempotent (y : float64) :
  (if ltb0 (if ltb0 y then Fin 0 else y) then Fin 0
   else (if ltb0 y then Fin 0 else y))
  = (if ltb0 y then Fin 0 else y).
Proof.
  destruct (ltb0 y) eqn:E; [| rewrite E; reflexivity].
  cbn. destruct (Rlt_dec 0 0); [lra | reflexivity].
Qed.

(** [relu] and [rectification] are the same function, and applying it a
    second time changes nothing: the output keeps the shape of the input,
    and rectified values are fixed points. *)
Theorem relu_idempotent (x : value) :
  rectification x = relu x
  /\ relu (relu x) = relu x
  /\ match x, relu x with
     | Scalar _, Scalar _ => True
     | Array xs, Array ys => length ys = length xs
     | _, _ => False
     end.
Proof.
  split; [reflexivity |]. split.
  - destruct x as [y | xs]; cbn.
    + f_equal. apply rectify_entry_idempotent.
    + f_equal. rewrite map_map. apply map_ext. intros y.
      apply rectify_entry_idempotent.
  - destruct x as [y | xs]; cbn; [exact I | apply length_map].
Qed.

(** The module-level [contrast_response_hyperbolic] and the method
    [LGNnode._get_contrast_response] agree: with [a = Rmax], [b = Rbase] and
    [c50 = C50] they return the same value or raise the same error, for
    every contrast and order. *)
Theorem hyperbolic_is_contrast_response (self : LGNnode.t) (c : scalar)
  (order : R) :
  contrast_response_hyperbolic c (LGNnode.Rmax self) (LGNnode.Rbase self)
    (LGNnode.C50 self) order
  = LGNnode._get_contrast_response self c order.
Proof. destruct c; reflexivity. Qed.

(** ** More on the population model *)

Lemma add_arrays_length (a b : list float64) :
  length (add_arrays a b) = Nat.min (length a) (length b).
Proof.
  revert b. induction a as [| x a IH]; intros [| y b]; cbn; try reflexivity.
  rewrite IH. reflexivity.
Qed.

Lemma iadd_length (a r : list float64) (v : value) :
  iadd a v = Ok r -> length r = length a.
Proof.
  unfold iadd. destruct v as [y | ys].
  - intros H. injection H as <-. apply length_map.
  - destruct (Nat.eqb_spec (length ys) (length a)) as [E | _].
    + intros H. injection H as <-. rewrite add_arrays_length. lia.
    + destruct ys as [| y [| z ys]]; try discriminate.
      intros H. injection H as <-. apply length_map.
Qed.

Lemma accumulate_length (f : LGNnode.t -> outcome value)
  (items : list LGNnode.t) :
  forall _resp r,
    V1node.accumulate f items _resp = Ok r -> length r = length _resp.
Proof.
  induction items as [| u items IH]; intros _resp r; cbn.
  - intros H. injection H as <-. reflexivity.
  - destruct (f u) as [v | e]; cbn [bind]; [| discriminate].
    destruct (iadd _resp v) as [a | e] eqn:Ha; cbn [bind]; [| discriminate].
    intros H. rewrite (IH _ _ H). apply (iadd_length _ _ _ Ha).
Qed.

Lemma zeros_length (length : Z) (z : list float64) :
  zeros length = Ok z -> List.length z = Z.to_nat length.
Proof.
  unfold zeros. destruct (length <? 0)%Z; [discriminate |].
  intros H. injection H as <-. apply repeat_length.
Qed.

Lemma steps_length (length : Z) (st : list float64) :
  V1node.steps length = Ok st -> List.length st = Z.to_nat length.
Proof.
  unfold V1node.steps, py_div.
  destruct (Req_dec_T (IZR length) 0); cbn [bind]; [discriminate |].
  intros H. injection H as <-.
  destruct (linspace_fin 0 (2 * PI * (1 - 1 / IZR length)) (Z.to_nat length))
    as (ps & -> & L).
  rewrite length_map. exact L.
Qed.

(** The length of the response curve.  Whatever the subunits and their
    nonlinearities are, a curve returned by either aggregation has exactly
    [length] entries. *)
Theorem population_curve_length (pop : V1node.t) (length : Z) (phase : R) :
  (forall (kw : V1node.grating_kwargs) (curve : list float64),
     V1node.get_response_grating pop length phase kw = Ok curve ->
     List.length curve = Z.to_nat length)
  /\ (forall (kw : V1node.plaid_kwargs) (curve : list float64),
        V1node.get_response_plaid pop length phase kw = Ok curve ->
        List.length curve = Z.to_nat length).
Proof.
  split; intros kw curve;
    unfold V1node.get_response_grating, V1node.get_response_plaid;
    (destruct (zeros length) as [z | e] eqn:Hz; cbn [bind]; [| discriminate]);
    (destruct (V1node.steps length) as [st | e]; cbn [bind]; [| discriminate]);
    match goal with
    | |- context [V1node.accumulate ?f ?l ?r] =>
        destruct (V1node.accumulate f l r) as [a | e] eqn:Ha; cbn [bind];
        [| discriminate]
    end;
    intros H; injection H as <-;
    unfold V1node.mean; rewrite length_map, (accumulate_length _ _ _ _ Ha);
    apply zeros_length; exact Hz.
Qed.

(** Errors on the length.  Whatever the population is, both aggregations
    raise [ZeroDivisionError] for [length = 0] (from [1/length]) and
    [ValueError] for a negative length (from [np.zeros]). *)
Theorem population_length_errors (pop : V1node.t) (phase : R)
  (gkw : V1node.grating_kwargs) (pkw : V1node.plaid_kwargs) :
  (V1node.get_response_grating pop 0 phase gkw = Raise ZeroDivisionError
   /\ V1node.get_response_plaid pop 0 phase pkw = Raise ZeroDivisionError)
  /\ (forall length : Z,
        (length < 0)%Z ->
        V1node.get_response_grating pop length phase gkw = Raise ValueError
        /\ V1node.get_response_plaid pop length phase pkw = Raise ValueError).
Proof.
  split.
  - unfold V1node.get_response_grating, V1node.get_response_plaid, V1node.steps.
    rewrite zeros_ok by lia. cbn [bind]. rewrite py_div_zero. split; reflexivity.
  - intros length H.
    unfold V1node.get_response_grating, V1node.get_response_plaid, zeros.
    destruct (Z.ltb_spec length 0); [split; reflexivity | lia].
Qed.

Lemma add_zero_l (y : float64) : add (Fin 0) y = y.
Proof. destruct y; cbn; try reflexivity. f_equal. ring. Qed.

Lemma add_arrays_zeros (ys : list float64) :
  add_arrays (repeat (Fin 0) (length ys)) ys = ys.
Proof.
  induction ys as [| y ys IH]; cbn [length repeat add_arrays]; [reflexivity |].
  rewrite add_zero_l, IH. reflexivity.
Qed.

Lemma div_one (y : float64) : div y (Fin 1) = y.
Proof.
  destruct y as [r | | |]; cbn; try reflexivity.
  - destruct (Req_dec_T 1 0); [lra |]. f_equal. field.
  - destruct (Rlt_dec 1 0); [lra | reflexivity].
  - destruct (Rlt_dec 1 0); [lra | reflexivity].
Qed.

Lemma mean_one (ys : list float64) : V1node.mean ys 1 = ys.
Proof.
  unfold V1node.mean. cbn [INR]. rewrite <- (map_id ys) at 2.
  apply map_ext. intros y. apply div_one.
Qed.

Lemma pooled_single (f : list float64 -> LGNnode.t -> outcome value)
  (u : LGNnode.t) (length : Z) (phase : R) (_step ys : list float64) :
  (1 <= length)%Z ->
  V1node.steps length = Ok _step ->
  f (map (fun s => add s (Fin phase)) _step) u = Ok (Array ys) ->
  List.length ys = Z.to_nat length ->
  (_resp <- zeros length ;;
   _step <- V1node.steps length ;;
   _resp <- V1node.accumulate
              (f (map (fun s => add s (Fin phase)) _step)) [u] _resp ;;
   Ok (V1node.mean _resp (List.length [u]))) = Ok ys.
Proof.
  intros Hlen Hs Hf Hys. rewrite zeros_ok, Hs by lia. cbn [bind V1node.accumulate].
  rewrite Hf. cbn [bind]. unfold iadd.
  rewrite repeat_length, Hys, Nat.eqb_refl. cbn [bind].
  rewrite <- Hys, add_arrays_zeros. cbn [List.length]. rewrite mean_one.
  reflexivity.
Qed.

(** Pooling one subunit.  For a population of a single subunit and a length
    [>= 1], when the subunit answers the phase samples with an array of
    [length] entries, the population curve is that array: the mean over
    one subunit changes nothing. *)
Theorem single_subunit_pooling (u : LGNnode.t) (nl : value -> value)
  (length : Z) (phase : R) (_step : list float64) :
  (1 <= length)%Z ->
  V1node.steps length = Ok _step ->
  let phases := Array (map (fun s => add s (Fin phase)) _step) in
  (forall (kw : V1node.grating_kwargs) (ys : list float64),
     LGNnode.get_response_grating u
       (V1node.or_default LGNnode.default_ori (V1node.ori kw))
       (V1node.or_default LGNnode.default_contrast (V1node.contrast kw))
       phases
       (V1node.or_default LGNnode.default_sf (V1node.sf kw)) = Ok (Array ys) ->
     List.length ys = Z.to_nat length ->
     V1node.get_response_grating (V1node.Build [u] nl) length phase kw = Ok ys)
  /\ (forall (kw : V1node.plaid_kwargs) (ys : list float64),
        LGNnode.get_response_plaid u
          (V1node.or_default LGNnode.default_ori (V1node.ori1 kw))
          (V1node.or_default LGNnode.default_ori (V1node.ori2 kw))
          (V1node.or_default LGNnode.default_contrast (V1node.contrast1 kw))
          (V1node.or_default LGNnode.default_contrast (V1node.contrast2 kw))
          phases
          (V1node.or_default LGNnode.default_Δphase (V1node.Δphase kw))
          (V1node.or_default LGNnode.default_sf (V1node.plaid_sf kw))
        = Ok (Array ys) ->
        List.length ys = Z.to_nat length ->
        V1node.get_response_plaid (V1node.Build [u] nl) length phase kw = Ok ys).
Proof.
  intros Hlen Hs phases. split.
  - intros kw ys Hf Hys.
    exact (pooled_single
             (fun ph item =>
                LGNnode.get_response_grating item
                  (V1node.or_default LGNnode.default_ori (V1node.ori kw))
                  (V1node.or_default LGNnode.default_contrast (V1node.contrast kw))
                  (Array ph)
                  (V1node.or_default LGNnode.default_sf (V1node.sf kw)))
             u length phase _step ys Hlen Hs Hf Hys).
  - intros kw ys Hf Hys.
    exact (pooled_single
             (fun ph item =>
                LGNnode.get_response_plaid item
                  (V1node.or_default LGNnode.default_ori (V1node.ori1 kw))
                  (V1node.or_default LGNnode.default_ori (V1node.ori2 kw))
                  (V1node.or_default LGNnode.default_contrast (V1node.contrast1 kw))
                  (V1node.or_default LGNnode.default_contrast (V1node.contrast2 kw))
                  (Array ph)
                  (V1node.or_default LGNnode.default_Δphase (V1node.Δphase kw))
                  (V1node.or_default LGNnode.default_sf (V1node.plaid_sf kw)))
             u length phase _step ys Hlen Hs Hf Hys).
Qed.

(** *** The order of the subunits *)

Lemma add_comm (x y : float64) : add x y = add y x.
Proof. destruct x, y; cbn; try reflexivity. f_equal. ring. Qed.

Lemma add_assoc (x y z : float64) : add (add x y) z = add x (add y z).
Proof. destruct x, y, z; cbn; try reflexivity. f_equal. ring. Qed.

Lemma add_arrays_swap (a x y : list float64) :
  add_arrays (add_arrays a x) y = add_arrays (add_arrays a y) x.
Proof.
  revert x y. induction a as [| r a IH]; intros [| s x] [| t y];
    cbn [add_arrays]; try reflexivity.
  rewrite IH. f_equal.
  rewrite !add_assoc. f_equal. apply add_comm.
Qed.

Lemma iadd_array (a ys : list float64) :
  length ys = length a -> iadd a (Array ys) = Ok (add_arrays a ys).
Proof. intros H. unfold iadd. rewrite H, Nat.eqb_refl. reflexivity. Qed.

Lemma accumulate_permutation (f : LGNnode.t -> outcome value) (n : nat)
  (items items' : list LGNnode.t) :
  Permutation items items' ->
  Forall (fun u => exists ys, f u = Ok (Array ys) /\ length ys = n) items ->
  forall _resp, length _resp = n ->
  V1node.accumulate f items _resp = V1node.accumulate f items' _resp.
Proof.
  induction 1 as [| u l l' Hp IH | u w l | l l' l'' Hp1 IH1 Hp2 IH2];
    intros Hall _resp Hn.
  - reflexivity.
  - inversion Hall as [| ? ? (ys & Hf & Hys) Hl]; subst.
    cbn [V1node.accumulate]. rewrite Hf. cbn [bind].
    rewrite iadd_array by congruence. cbn [bind].
    apply IH; [exact Hl |]. rewrite add_arrays_length. lia.
  - inversion Hall as [| ? ? (ys & Hf & Hys) Hl]; subst.
    inversion Hl as [| ? ? (zs & Hg & Hzs) Hl']; subst.
    cbn [V1node.accumulate]. rewrite Hf, Hg. cbn [bind].
    rewrite !iadd_array by congruence. cbn [bind].
    rewrite !iadd_array by (rewrite add_arrays_length; lia). cbn [bind].
    rewrite add_arrays_swap. reflexivity.
  - rewrite IH1 by assumption. apply IH2; [| exact Hn].
    eapply Permutation_Forall; eassumption.
Qed.

Lemma grating_array_shape (self : LGNnode.t) (ori c sf : R)
  (phases : list float64) :
  shape_preserving (LGNnode.nonlinear self) ->
  c + LGNnode.C50 self <> 0 ->
  exists ys,
    LGNnode.get_response_grating self ori c (Array phases) sf = Ok (Array ys)
    /\ length ys = length phases.
Proof.
  intros Hnl Hc. rewrite grating_respond. unfold LGNnode._get_sinusoidal.
  rewrite (respond_fin self _ _ (CR self c))
    by (left; apply contrast_response_py; exact Hc).
  cbn [vmap].
  match goal with
  | |- context [LGNnode.nonlinear self (Array ?xs)] =>
      destruct (Hnl xs) as (ys & E & L); exists ys; rewrite E;
      split; [reflexivity |]; rewrite L, !length_map; reflexivity
  end.
Qed.

Lemma plaid_array_shape (self : LGNnode.t) (ori1 ori2 c1 c2 Δphase sf : R)
  (phases : list float64) :
  shape_preserving (LGNnode.nonlinear self) ->
  exists ys,
    LGNnode.get_response_plaid self ori1 ori2 c1 c2 (Array phases) Δphase sf
    = Ok (Array ys)
    /\ length ys = length phases.
Proof.
  intros Hnl. rewrite plaid_respond.
  unfold LGNnode._get_sinusoidal_plaid, respond, LGNnode.default_order,
    LGNnode._get_contrast_response.
  cbn [fst snd]. rewrite py_pow_1. cbn [bind vmap LGNnode.times].
  match goal with
  | |- context [LGNnode.nonlinear self (Array ?xs)] =>
      destruct (Hnl xs) as (ys & E & L); exists ys; rewrite E;
      split; [reflexivity |]; rewrite L, !length_map; reflexivity
  end.
Qed.

Lemma pooled_permutation (f : list float64 -> LGNnode.t -> outcome value)
  (subunits subunits' : list LGNnode.t) (length : Z) (phase : R) :
  Permutation subunits subunits' ->
  (forall ph : list float64,
     Forall (fun u => exists ys, f ph u = Ok (Array ys)
                                 /\ List.length ys = List.length ph)
            subunits) ->
  (_resp <- zeros length ;;
   _step <- V1node.steps length ;;
   _resp <- V1node.accumulate
              (f (map (fun s => add s (Fin phase)) _step)) subunits _resp ;;
   Ok (V1node.mean _resp (List.length subunits)))
  = (_resp <- zeros length ;;
     _step <- V1node.steps length ;;
     _resp <- V1node.accumulate
                (f (map (fun s => add s (Fin phase)) _step)) subunits' _resp ;;
     Ok (V1node.mean _resp (List.length subunits'))).
Proof.
  intros Hp Hf.
  destruct (zeros length) as [z | e] eqn:Hz; cbn [bind]; [| reflexivity].
  destruct (V1node.steps length) as [st | e] eqn:Hs; cbn [bind]; [| reflexivity].
  rewrite (accumulate_permutation _ (Z.to_nat length) _ _ Hp).
  - rewrite (Permutation_length Hp). reflexivity.
  - specialize (Hf (map (fun s => add s (Fin phase)) st)).
    rewrite length_map, (steps_length _ _ Hs) in Hf. exact Hf.
  - apply zeros_length. exact Hz.
Qed.

(** The order of the subunits does not matter.  When the nonlinearity of
    every subunit keeps the shape of an array (as [relu] does), two
    populations over the same subunits in a different order return the same
    plaid curve, and the same grating curve at a contrast with
    [contrast + C50 <> 0] for every subunit (sums taken over the reals). *)
Theorem pooling_order_irrelevant (subunits subunits' : list LGNnode.t)
  (nl nl' : value -> value) (length : Z) (phase : R) :
  Permutation subunits subunits' ->
  Forall (fun u => shape_preserving (LGNnode.nonlinear u)) subunits ->
  (forall kw : V1node.plaid_kwargs,
     V1node.get_response_plaid (V1node.Build subunits nl) length phase kw
     = V1node.get_response_plaid (V1node.Build subunits' nl') length phase kw)
  /\ (forall kw : V1node.grating_kwargs,
        Forall (fun u =>
                  V1node.or_default LGNnode.default_contrast
                    (V1node.contrast kw) + LGNnode.C50 u <> 0)
               subunits ->
        V1node.get_response_grating (V1node.Build subunits nl) length phase kw
        = V1node.get_response_grating (V1node.Build subunits' nl') length
            phase kw).
Proof.
  intros Hp Hnl. split.
  - intros kw.
    apply (pooled_permutation
             (fun ph item =>
                LGNnode.get_response_plaid item
                  (V1node.or_default LGNnode.default_ori (V1node.ori1 kw))
                  (V1node.or_default LGNnode.default_ori (V1node.ori2 kw))
                  (V1node.or_default LGNnode.default_contrast (V1node.contrast1 kw))
                  (V1node.or_default LGNnode.default_contrast (V1node.contrast2 kw))
                  (Array ph)
                  (V1node.or_default LGNnode.default_Δphase (V1node.Δphase kw))
                  (V1node.or_default LGNnode.default_sf (V1node.plaid_sf kw)))
             subunits subunits' length phase Hp).
    intros ph. rewrite Forall_forall in *. intros u Hu.
    apply plaid_array_shape. apply (Hnl u Hu).
  - intros kw Hc.
    apply (pooled_permutation
             (fun ph item =>
                LGNnode.get_response_grating item
                  (V1node.or_default LGNnode.default_ori (V1node.ori kw))
                  (V1node.or_default LGNnode.default_contrast (V1node.contrast kw))
                  (Array ph)
                  (V1node.or_default LGNnode.default_sf (V1node.sf kw)))
             subunits subunits' length phase Hp).
    intros ph. rewrite Forall_forall in *. intros u Hu.
    apply grating_array_shape; [apply (Hnl u Hu) | apply (Hc u Hu)].
Qed.

Lemma relu_shape_preserving : shape_preserving relu.
Proof.
  intros xs. eexists. split; [reflexivity | apply length_map].
Qed.

(** ** [IndexCalc] *)

Lemma neg_add (x y : float64) : neg (add x y) = add (neg x) (neg y).
Proof. destruct x, y; cbn; try reflexivity. f_equal. ring. Qed.

Lemma neg_neg (x : float64) : neg (neg x) = x.
Proof. destruct x; cbn; try reflexivity. f_equal. ring. Qed.

Lemma neg_scale_inf (a : R) (i : float64) :
  scale_inf (- a) i = neg (scale_inf a i).
Proof.
  unfold scale_inf.
  destruct (Req_dec_T (- a) 0), (Req_dec_T a 0); try lra; [reflexivity |].
  destruct (Rlt_dec 0 (- a)), (Rlt_dec 0 a); try lra;
    [rewrite neg_neg; reflexivity | reflexivity].
Qed.

Lemma div_neg_l (x y : float64) : div (neg x) y = neg (div x y).
Proof.
  destruct x as [a | | |], y as [b | | |]; cbn [neg div]; try reflexivity.
  - destruct (Req_dec_T b 0); [apply neg_scale_inf |].
    cbn [neg]. f_equal. field. assumption.
  - f_equal. ring.
  - f_equal. ring.
  - destruct (Rlt_dec b 0); reflexivity.
  - destruct (Rlt_dec b 0); reflexivity.
Qed.

(** The selectivity index is antisymmetric: exchanging test and mask
    changes its sign, for all values, finite or not. *)
Theorem selectivity_index_antisymmetric (test mask : float64) :
  IndexCalc.selectivity_index mask test
  = neg (IndexCalc.selectivity_index test mask).
Proof.
  unfold IndexCalc.selectivity_index, sub.
  rewrite <- div_neg_l, neg_add, neg_neg.
  rewrite (add_comm mask test), (add_comm mask (neg test)). reflexivity.
Qed.

Lemma ratio_range (a b : R) :
  0 <= a -> 0 <= b -> 0 < a + b ->
  -1 <= (a + - b) / (a + b) <= 1
  /\ ((a + - b) / (a + b) = 1 <-> b = 0)
  /\ ((a + - b) / (a + b) = -1 <-> a = 0)
  /\ ((a + - b) / (a + b) = 0 <-> a = b)
  /\ ((a + - b) / (a + b) < 0 <-> a < b).
Proof.
  intros Ha Hb Hs.
  set (r := (a + - b) / (a + b)).
  assert (E : r * (a + b) = a - b) by (unfold r; field; lra).
  assert (Hi : 0 < / (a + b)) by (apply Rinv_0_lt_compat; exact Hs).
  repeat split; try intros H; try nra.
Qed.

(** Range of the selectivity index.  For finite responses [test >= 0] and
    [mask >= 0] that are not both 0, the index is a finite number in
    [-1, 1]; it is 1 exactly when the mask response is 0 and -1 exactly when
    the test response is 0. *)
Theorem selectivity_index_range (test mask : R) :
  0 <= test -> 0 <= mask -> 0 < test + mask ->
  exists r : R,
    IndexCalc.selectivity_index (Fin test) (Fin mask) = Fin r
    /\ -1 <= r <= 1
    /\ (r = 1 <-> mask = 0)
    /\ (r = -1 <-> test = 0).
Proof.
  intros Ht Hm Hs.
  destruct (ratio_range test mask Ht Hm Hs) as (Hr & H1 & H2 & _).
  exists ((test + - mask) / (test + mask)).
  unfold IndexCalc.selectivity_index, sub. cbn [neg add].
  rewrite div_fin by lra. repeat split; tauto.
Qed.

(** Sign of the masking index.  For finite responses [>= 0] that are not
    all 0, the index is a finite number in [-1, 1]; it is 0 exactly when
    the plaid response is the sum of the test and mask responses, and
    negative exactly when the plaid response is smaller than that sum. *)
Theorem masking_index_sign (test mask plaid : R) :
  0 <= test -> 0 <= mask -> 0 <= plaid -> 0 < plaid + (test + mask) ->
  exists r : R,
    IndexCalc.masking_index (Fin test) (Fin mask) (Fin plaid) = Fin r
    /\ -1 <= r <= 1
    /\ (r = 0 <-> plaid = test + mask)
    /\ (r < 0 <-> plaid < test + mask).
Proof.
  intros Ht Hm Hp Hs.
  assert (Hb : 0 <= test + mask) by lra.
  destruct (ratio_range plaid (test + mask) Hp Hb Hs) as (Hr & _ & _ & H0 & Hn).
  exists ((plaid + - (test + mask)) / (plaid + (test + mask))).
  unfold IndexCalc.masking_index, sub. cbn [neg add].
  rewrite div_fin by lra. repeat split; tauto.
Qed.

(** Silent responses.  When all the responses are 0 the two indices are
    [nan]: NumPy's [0/0], returned without an error. *)
Lemma indices_of_zero_responses :
  IndexCalc.selectivity_index (Fin 0) (Fin 0) = NaN
  /\ IndexCalc.masking_index (Fin 0) (Fin 0) (Fin 0) = NaN.
Proof.
  unfold IndexCalc.selectivity_index, IndexCalc.masking_index, sub.
  cbn [neg add].
  replace (0 + - 0) with 0 by ring. replace (0 + 0) with 0 by ring.
  replace (0 + - 0) with 0 by ring. replace (0 + 0) with 0 by ring.
  rewrite div_zero_zero. split; reflexivity.
Qed.

(** ** The further properties at concrete inputs *)

Lemma default_Rbase_nonneg (nl : value -> value) :
  0 <= LGNnode.Rbase (default_subunit nl).
Proof. cbn. unfold LGNnode.default_Rbase. lra. Defined.

Lemma contrast_response_half_saturation_witness :
  0 < LGNnode.C50 (default_subunit relu)
  /\ representable (Rpower (LGNnode.C50 (default_subunit relu)) (3 / 2))
  /\ LGNnode._get_contrast_response (default_subunit relu)
       (PyFloat (LGNnode.C50 (default_subunit relu))) (3 / 2)
     = Ok (PyFloat (LGNnode.Rmax (default_subunit relu) / 2
                    + LGNnode.Rbase (default_subunit relu))).
Proof.
  split; [exact (default_C50_pos relu) |].
  split; [exact half_power_representable |].
  exact (proj1 (contrast_response_half_saturation (default_subunit relu) (3 / 2)
                  (default_C50_pos relu) half_power_representable)).
Defined.

Lemma one_power_in_range : 1 = 0 \/ Rpower 1 (3 / 2) < overflow_threshold.
Proof.
  right. destruct thresholds as (_ & _ & Ho).
  unfold Rpower. rewrite ln_1, Rmult_0_r, exp_0. exact Ho.
Qed.

Lemma contrast_response_bounded_witness :
  0 <= LGNnode.Rmax (default_subunit relu)
  /\ 0 < LGNnode.C50 (default_subunit relu)
  /\ 0 <= 1
  /\ 0 <= 3 / 2
  /\ (1 = 0 \/ Rpower 1 (3 / 2) < overflow_threshold)
  /\ representable (Rpower (LGNnode.C50 (default_subunit relu)) (3 / 2))
  /\ exists r : R,
       LGNnode._get_contrast_response (default_subunit relu) (PyFloat 1) (3 / 2)
       = Ok (PyFloat r)
       /\ LGNnode._get_contrast_response (default_subunit relu)
            (NpFloat (Fin 1)) (3 / 2) = Ok (NpFloat (Fin r))
       /\ LGNnode.Rbase (default_subunit relu) <= r
          <= LGNnode.Rmax (default_subunit relu)
             + LGNnode.Rbase (default_subunit relu).
Proof.
  assert (Ho : 0 <= 3 / 2) by lra.
  split; [exact (default_Rmax_nonneg relu) |].
  split; [exact (default_C50_pos relu) |].
  split; [exact Rle_0_1 |].
  split; [exact Ho |].
  split; [exact one_power_in_range |].
  split; [exact half_power_representable |].
  exact (contrast_response_bounded (default_subunit relu) 1 (3 / 2)
           (default_Rmax_nonneg relu) (default_C50_pos relu) Rle_0_1 Ho
           one_power_in_range half_power_representable).
Defined.

Lemma response_at_origin_witness :
  LGNnode.center (default_subunit relu) = (0, 0)
  /\ LGNnode.default_sf <> 0
  /\ LGNnode.get_response_grating (default_subunit relu) 0 1
       (Scalar (Fin 1)) LGNnode.default_sf
     = LGNnode.get_response_grating (default_subunit relu) 2 1
         (Scalar (Fin 1)) LGNnode.default_sf.
Proof.
  split; [reflexivity |]. split; [exact default_sf_nonzero |].
  exact (proj1 (response_at_origin (default_subunit relu) (Scalar (Fin 1))
                  LGNnode.default_sf LGNnode.default_sf eq_refl
                  default_sf_nonzero default_sf_nonzero)
           0 2 1).
Defined.

Lemma relu_response_range_witness :
  LGNnode.nonlinear (default_subunit relu) = relu
  /\ 0 <= LGNnode.Rmax (default_subunit relu)
  /\ 0 <= LGNnode.Rbase (default_subunit relu)
  /\ 0 < LGNnode.C50 (default_subunit relu)
  /\ LGNnode.default_sf <> 0
  /\ 0 <= 1
  /\ exists r : R,
       LGNnode.get_response_grating (default_subunit relu) 0 1
         (Scalar (Fin 1)) LGNnode.default_sf = Ok (Scalar (Fin r))
       /\ 0 <= r <= 2 * (LGNnode.Rmax (default_subunit relu)
                         + LGNnode.Rbase (default_subunit relu)).
Proof.
  split; [reflexivity |].
  split; [exact (default_Rmax_nonneg relu) |].
  split; [exact (default_Rbase_nonneg relu) |].
  split; [exact (default_C50_pos relu) |].
  split; [exact default_sf_nonzero |].
  split; [exact Rle_0_1 |].
  exact (proj1 (relu_response_range (default_subunit relu) LGNnode.default_sf 1
                  eq_refl (default_Rmax_nonneg relu)
                  (default_Rbase_nonneg relu) (default_C50_pos relu)
                  default_sf_nonzero)
           0 1 Rle_0_1).
Defined.

Lemma plaid_components_commute_witness :
  LGNnode.default_sf <> 0
  /\ LGNnode.get_response_plaid (default_subunit relu) 0 1 1 2
       (Scalar (Fin 0)) 0 LGNnode.default_sf
     = LGNnode.get_response_plaid (default_subunit relu) 1 0 2 1
         (Scalar (Fin 0)) 0 LGNnode.default_sf.
Proof.
  split; [exact default_sf_nonzero |].
  exact (plaid_components_commute (default_subunit relu) 0 1 1 2
           LGNnode.default_sf (Scalar (Fin 0)) default_sf_nonzero).
Defined.

Lemma relu_opposite_phases_witness :
  LGNnode.nonlinear (default_subunit relu) = relu
  /\ LGNnode.default_sf <> 0
  /\ LGNnode.default_contrast + LGNnode.C50 (default_subunit relu) <> 0
  /\ exists r1 r2 : R,
       LGNnode.get_response_grating (default_subunit relu) 0
         LGNnode.default_contrast (Scalar (Fin 1)) LGNnode.default_sf
       = Ok (Scalar (Fin r1))
       /\ LGNnode.get_response_grating (default_subunit relu) 0
            LGNnode.default_contrast (Scalar (Fin (1 + PI))) LGNnode.default_sf
          = Ok (Scalar (Fin r2))
       /\ (r1 = 0 \/ r2 = 0)
       /\ r1 - r2
          = CR (default_subunit relu) LGNnode.default_contrast * 2
            * Rtrigo_def.sin
                (phase_offset (default_subunit relu) 0 LGNnode.default_sf + 1).
Proof.
  split; [reflexivity |].
  split; [exact default_sf_nonzero |].
  split; [exact (default_contrast_defined relu) |].
  exact (relu_opposite_phases (default_subunit relu) 0 LGNnode.default_contrast
           LGNnode.default_sf 1 eq_refl default_sf_nonzero
           (default_contrast_defined relu)).
Defined.

Lemma steps_one : V1node.steps 1 = Ok [Fin 0].
Proof.
  unfold V1node.steps. rewrite py_div_ok by lra. reflexivity.
Defined.

Lemma empty_curve_one_sample :
  V1node.get_response_grating (V1node.Build [] relu) 1 0 no_grating_kwargs
  = Ok [NaN].
Proof.
  unfold V1node.get_response_grating.
  rewrite zeros_ok by lia. rewrite steps_one.
  cbn [bind V1node.subunits V1node.accumulate List.length].
  change (Z.to_nat 1) with 1%nat. unfold V1node.mean. cbn [repeat map INR].
  rewrite div_zero_zero. reflexivity.
Defined.

Lemma population_curve_length_witness :
  V1node.get_response_grating (V1node.Build [] relu) 1 0 no_grating_kwargs
  = Ok [NaN]
  /\ List.length [NaN] = Z.to_nat 1.
Proof.
  split; [exact empty_curve_one_sample |].
  exact (proj1 (population_curve_length (V1node.Build [] relu) 1 0)
           no_grating_kwargs [NaN] empty_curve_one_sample).
Defined.

Lemma population_length_errors_witness :
  (-1 < 0)%Z
  /\ V1node.get_response_grating (V1node.Build [default_subunit relu] relu)
       (-1) 0 no_grating_kwargs = Raise ValueError
  /\ V1node.get_response_plaid (V1node.Build [default_subunit relu] relu)
       (-1) 0 no_plaid_kwargs = Raise ValueError.
Proof.
  assert (H : (-1 < 0)%Z) by lia.
  split; [exact H |].
  exact (proj2 (population_length_errors
                  (V1node.Build [default_subunit relu] relu) 0
                  no_grating_kwargs no_plaid_kwargs)
           (-1)%Z H).
Defined.

Lemma default_curve_one_sample :
  exists ys : list float64,
    LGNnode.get_response_grating (default_subunit relu)
      (V1node.or_default LGNnode.default_ori (V1node.ori no_grating_kwargs))
      (V1node.or_default LGNnode.default_contrast
         (V1node.contrast no_grating_kwargs))
      (Array (map (fun s => add s (Fin 0)) [Fin 0]))
      (V1node.or_default LGNnode.default_sf (V1node.sf no_grating_kwargs))
    = Ok (Array ys)
    /\ List.length ys = Z.to_nat 1.
Proof.
  cbn [V1node.or_default V1node.ori V1node.contrast V1node.sf
       no_grating_kwargs map add].
  change [Fin (0 + 0)] with (map Fin [0 + 0]).
  rewrite grating_array
    by (exact default_sf_nonzero || exact (default_contrast_defined relu)).
  change (LGNnode.nonlinear (default_subunit relu)) with relu.
  rewrite relu_array_fin. eexists. split; reflexivity.
Defined.

Lemma single_subunit_pooling_witness :
  (1 <= 1)%Z
  /\ V1node.steps 1 = Ok [Fin 0]
  /\ exists ys : list float64,
       List.length ys = Z.to_nat 1
       /\ V1node.get_response_grating
            (V1node.Build [default_subunit relu] relu) 1 0 no_grating_kwargs
          = Ok ys.
Proof.
  assert (H : (1 <= 1)%Z) by lia.
  split; [exact H |]. split; [exact steps_one |].
  destruct default_curve_one_sample as (ys & E & L).
  exists ys. split; [exact L |].
  exact (proj1 (single_subunit_pooling (default_subunit relu) relu 1 0 [Fin 0]
                  H steps_one)
           no_grating_kwargs ys E L).
Defined.

Lemma pooling_order_irrelevant_witness :
  Permutation [default_subunit relu; baseline_subunit]
    [baseline_subunit; default_subunit relu]
  /\ Forall (fun u => shape_preserving (LGNnode.nonlinear u))
       [default_subunit relu; baseline_subunit]
  /\ V1node.get_response_plaid
       (V1node.Build [default_subunit relu; baseline_subunit] relu) 4 0
       no_plaid_kwargs
     = V1node.get_response_plaid
         (V1node.Build [baseline_subunit; default_subunit relu] relu) 4 0
         no_plaid_kwargs.
Proof.
  assert (Hp : Permutation [default_subunit relu; baseline_subunit]
                 [baseline_subunit; default_subunit relu])
    by apply perm_swap.
  assert (Hs : Forall (fun u => shape_preserving (LGNnode.nonlinear u))
                 [default_subunit relu; baseline_subunit]).
  { repeat constructor; exact relu_shape_preserving. }
  split; [exact Hp |]. split; [exact Hs |].
  exact (proj1 (pooling_order_irrelevant _ _ relu relu 4 0 Hp Hs)
           no_plaid_kwargs).
Defined.

Lemma selectivity_index_range_witness :
  0 <= 3 /\ 0 <= 1 /\ 0 < 3 + 1
  /\ exists r : R,
       IndexCalc.selectivity_index (Fin 3) (Fin 1) = Fin r
       /\ -1 <= r <= 1
       /\ (r = 1 <-> 1 = 0)
       /\ (r = -1 <-> 3 = 0).
Proof.
  assert (H3 : 0 <= 3) by lra. assert (H4 : 0 < 3 + 1) by lra.
  split; [exact H3 |]. split; [exact Rle_0_1 |]. split; [exact H4 |].
  exact (selectivity_index_range 3 1 H3 Rle_0_1 H4).
Defined.

Lemma masking_index_sign_witness :
  0 <= 3 /\ 0 <= 1 /\ 0 <= 2 /\ 0 < 2 + (3 + 1)
  /\ exists r : R,
       IndexCalc.masking_index (Fin 3) (Fin 1) (Fin 2) = Fin r
       /\ -1 <= r <= 1
       /\ (r = 0 <-> 2 = 3 + 1)
       /\ (r < 0 <-> 2 < 3 + 1).
Proof.
  assert (H3 : 0 <= 3) by lra. assert (H2 : 0 <= 2) by lra.
  assert (H6 : 0 < 2 + (3 + 1)) by lra.
  split; [exact H3 |]. split; [exact Rle_0_1 |]. split; [exact H2 |].
  split; [exact H6 |].
  exact (masking_index_sign 3 1 2 H3 Rle_0_1 H2 H6).
Defined.
